(** * mash: token catalog, lexer state machine and recursive-descent parser

    A shallow embedding of the Go packages [token], [lexer] and [parser]
    of the mash shell.  Token kinds are Go [int]s, so they are [Z] here;
    the source is a Go string, i.e. a byte sequence, so it is a Rocq
    [string] (a list of 8-bit [ascii] characters). *)

From Stdlib Require Import ZArith Lia Ascii.
From stdpp Require Import base gmap strings list pretty.

Open Scope Z_scope.

(* ------------------------------------------------------------------ *)
(** ** Package [token] *)

Module Token.

(** [type Type int] and its [iota] enumeration. *)
Definition Illegal : Z := 0.
Definition Eof : Z := 1.
Definition Comment : Z := 2.
Definition literalBeg : Z := 3.
Definition Identifier : Z := 4.
Definition Number : Z := 5.
Definition String : Z := 6.
Definition literalEnd : Z := 7.
Definition operatorBeg : Z := 8.
Definition Addition : Z := 9.
Definition Subtraction : Z := 10.
Definition Multiplication : Z := 11.
Definition Quotient : Z := 12.
Definition Remainder : Z := 13.
Definition And : Z := 14.
Definition Or : Z := 15.
Definition Xor : Z := 16.
Definition ShiftLeft : Z := 17.
Definition ShiftRight : Z := 18.
Definition AndNot : Z := 19.
Definition AdditionAssign : Z := 20.
Definition SubtractionAssign : Z := 21.
Definition MultiplicationAssign : Z := 22.
Definition QuotientAssign : Z := 23.
Definition RemainderAssign : Z := 24.
Definition AndAssign : Z := 25.
Definition OrAssign : Z := 26.
Definition XorAssign : Z := 27.
Definition ShiftLeftAssign : Z := 28.
Definition ShiftRightAssign : Z := 29.
Definition AndNotAssign : Z := 30.
Definition LogicalAnd : Z := 31.
Definition LogicalOr : Z := 32.
Definition Equal : Z := 33.
Definition LessThan : Z := 34.
Definition GreaterThan : Z := 35.
Definition Assign : Z := 36.
Definition Define : Z := 37.
Definition Not : Z := 38.
Definition NotEqual : Z := 39.
Definition LessThanEqual : Z := 40.
Definition GreaterThanEqual : Z := 41.
Definition LeftParen : Z := 42.
Definition LeftBrack : Z := 43.
Definition LeftBrace : Z := 44.
Definition Template : Z := 45.
Definition Comma : Z := 46.
Definition Period : Z := 47.
Definition RightParen : Z := 48.
Definition RightBrack : Z := 49.
Definition RightBrace : Z := 50.
Definition Semicolon : Z := 51.
Definition Colon : Z := 52.
Definition operatorEnd : Z := 53.
Definition keywordBeg : Z := 54.
Definition For : Z := 55.
Definition If : Z := 56.
Definition Else : Z := 57.
Definition Let : Z := 58.
Definition Obj : Z := 59.
Definition Func : Z := 60.
Definition Break : Z := 61.
Definition Continue : Z := 62.
Definition Return : Z := 63.
Definition keywordEnd : Z := 64.

(** The older constant names used by the lexer's state functions and by
    the parser ([token.LBRACE], [token.ADD], ...), bound to the kinds
    above. *)
Definition ILLEGAL := Illegal.
Definition EOF := Eof.
Definition COMMENT := Comment.
Definition FLOAT := Number.
Definition STRING := String.
Definition ADD := Addition.
Definition SUB := Subtraction.
Definition MUL := Multiplication.
Definition QUO := Quotient.
Definition REM := Remainder.
Definition AND := And.
Definition OR := Or.
Definition XOR := Xor.
Definition LSS := LessThan.
Definition GTR := GreaterThan.
Definition ASSIGN := Assign.
Definition NOT := Not.
Definition LPAREN := LeftParen.
Definition LBRACE := LeftBrace.
Definition COMMA := Comma.
Definition RPAREN := RightParen.
Definition RBRACK := RightBrack.
Definition RBRACE := RightBrace.
Definition SEMICOLON := Semicolon.
Definition COLON := Colon.
Definition LAND := LogicalAnd.
Definition LOR := LogicalOr.
Definition LET := Let.
Definition IF := If.
Definition FOR := For.

(** [var tokens = [...]string{...}]: a keyed array literal, so the slots
    of the range sentinels (literalBeg, literalEnd, operatorBeg,
    operatorEnd, keywordBeg) hold the zero string.  Its length is
    [Return + 1 = 64]. *)
Definition tokens : list string := [
  (* 0  Illegal *) "ILLEGAL"; (* 1 Eof *) "EOF"; (* 2 Comment *) "COMMENT";
  (* 3  literalBeg *) "";
  (* 4  Identifier *) "IDENT"; (* 5 Number *) "FLOAT"; (* 6 String *) "STRING";
  (* 7  literalEnd *) ""; (* 8 operatorBeg *) "";
  (* 9  *) "+"; (* 10 *) "-"; (* 11 *) "*"; (* 12 *) "/"; (* 13 *) "%";
  (* 14 *) "&"; (* 15 *) "|"; (* 16 *) "^"; (* 17 *) "<<"; (* 18 *) ">>";
  (* 19 *) "&^";
  (* 20 *) "+="; (* 21 *) "-="; (* 22 *) "*="; (* 23 *) "/="; (* 24 *) "%=";
  (* 25 *) "&="; (* 26 *) "|="; (* 27 *) "^="; (* 28 *) "<<="; (* 29 *) ">>=";
  (* 30 *) "&^=";
  (* 31 *) "&&"; (* 32 *) "||";
  (* 33 *) "=="; (* 34 *) "<"; (* 35 *) ">"; (* 36 *) "="; (* 37 *) ":=";
  (* 38 *) "!";
  (* 39 *) "!="; (* 40 *) "<="; (* 41 *) ">=";
  (* 42 *) "("; (* 43 *) "["; (* 44 *) "{"; (* 45 *) "'"; (* 46 *) ",";
  (* 47 *) ".";
  (* 48 *) ")"; (* 49 *) "]"; (* 50 *) "}"; (* 51 *) ";"; (* 52 *) ":";
  (* 53 operatorEnd *) ""; (* 54 keywordBeg *) "";
  (* 55 *) "for"; (* 56 *) "if"; (* 57 *) "else";
  (* 58 *) "let"; (* 59 *) "obj"; (* 60 *) "func";
  (* 61 *) "break"; (* 62 *) "continue"; (* 63 *) "return"
]%string.

(** [tokens[t]] for an in-range index. *)
Definition tokens_at (t : Z) : string :=
  default ""%string (tokens !! Z.to_nat t).

(** [func token(s string) Type]: the first index whose entry is [s]. *)
Fixpoint token_from (i : Z) (l : list string) (s : string) : Z :=
  match l with
  | [] => Illegal
  | val :: l' => if String.eqb val s then i else token_from (i + 1) l' s
  end.

Definition token (s : string) : Z := token_from 0 tokens s.

(** [func (tok Type) String() string]. *)
Definition String_ (tok : Z) : string :=
  let s := if (0 <=? tok) && (tok <? Z.of_nat (length tokens))
           then tokens_at tok else ""%string in
  if String.eqb s "" then ("token(" +:+ pretty tok +:+ ")")%string else s.

Definition IsLiteral (tok : Z) : bool := (literalBeg <? tok) && (tok <? literalEnd).
Definition IsOperator_ (tok : Z) : bool := (operatorBeg <? tok) && (tok <? operatorEnd).
Definition IsKeyword_ (tok : Z) : bool := (keywordBeg <? tok) && (tok <? keywordEnd).

(** [func (tok Type) InsertSemi() bool]. *)
Definition InsertSemi (tok : Z) : bool :=
  if IsLiteral tok then true
  else (tok =? RightParen) || (tok =? RightBrack) || (tok =? RightBrace)
       || (tok =? Break) || (tok =? Continue) || (tok =? Return).

(** [init]: [for i := keywordBeg + 1; i < keywordEnd; i++ { keywords[tokens[i]] = i }].
    The loop runs over [n] indices starting at [i]. *)
Fixpoint fill_keywords (n : nat) (i : Z) (m : gmap string Z) : gmap string Z :=
  match n with
  | O => m
  | S n' => fill_keywords n' (i + 1) (<[tokens_at i := i]> m)
  end.

Definition keywords : gmap string Z :=
  fill_keywords (Z.to_nat (keywordEnd - (keywordBeg + 1))) (keywordBeg + 1) ∅.

(** [func IsKeyword(name string) bool]. *)
Definition IsKeyword (name : string) : bool := bool_decide (is_Some (keywords !! name)).

(** [func IsOperator(s string) bool]. *)
Definition IsOperator (s : string) : bool := IsOperator_ (token s).

(** [func Lookup(name string) Type]. *)
Definition Lookup (name : string) : Z :=
  match keywords !! name with
  | Some tok => tok
  | None => Identifier
  end.

(** [type Position struct { Line, Col int }]. *)
Record Position := mkPosition { Line : Z; Col : Z }.

(** Modelled from the spec: [Position.NextLine] (not in the sources):
    "a newline resets column to 1 and increments line". *)
Definition NextLine (p : Position) : Position :=
  {| Line := Line p + 1; Col := 1 |}.

(** [type Token struct { Type Type; Literal string; Position Position }]. *)
Record Token := mkToken { Type_ : Z; Literal : string; Position_ : Position }.

End Token.

(* ------------------------------------------------------------------ *)
(** ** Go's [unicode] and [unicode/utf8] on runes *)

Module Unicode.

(** A character constant of the Go source, as a rune. *)
Definition chr (c : Ascii.ascii) : Z := Z.of_nat (Ascii.nat_of_ascii c).

Definition MaxLatin1 : Z := 255.
Definition RuneError : Z := 65533.  (* U+FFFD *)
Definition RuneSelf : Z := 128.
Definition MaxRune : Z := 1114111.  (* U+10FFFF *)

(** [unicode.IsSpace]: the Latin-1 switch, then the White_Space table
    (U+1680, U+2000..U+200A, U+2028, U+2029, U+202F, U+205F, U+3000).
    A negative rune is huge as a [uint32], so it goes to the table. *)
Definition IsSpace (r : Z) : bool :=
  if (0 <=? r) && (r <=? MaxLatin1) then
    (9 <=? r) && (r <=? 13) || (r =? 32) || (r =? 133) || (r =? 160)
  else
    (r =? 5760) || (8192 <=? r) && (r <=? 8202) || (r =? 8232) || (r =? 8233)
    || (r =? 8239) || (r =? 8287) || (r =? 12288).

Section Tables.
(** The Unicode letter (L) and decimal digit (Nd) tables beyond Latin-1
    belong to Go's standard library, not to this repository: they are
    parameters of the whole development. *)
Variable isLetterAbove : Z -> bool.
Variable isDigitAbove : Z -> bool.

(** [unicode.IsLetter]: Latin-1 properties, then the L table. *)
Definition IsLetter (r : Z) : bool :=
  if r <? 0 then false
  else if r <=? MaxLatin1 then
    (65 <=? r) && (r <=? 90) || (97 <=? r) && (r <=? 122)
    || (r =? 170) || (r =? 181) || (r =? 186)
    || (192 <=? r) && (r <=? 214) || (216 <=? r) && (r <=? 246)
    || (248 <=? r) && (r <=? 255)
  else isLetterAbove r.

(** [unicode.IsDigit]. *)
Definition IsDigit (r : Z) : bool :=
  if r <=? MaxLatin1 then (48 <=? r) && (r <=? 57) else isDigitAbove r.

End Tables.

(** [utf8.DecodeRuneInString], on the bytes of the string: the [first]
    table gives the size of a leading byte and the accepted range of the
    second byte; later continuation bytes are in [0x80, 0xBF]. *)
Definition first_info (s0 : Z) : option (nat * Z * Z) :=
  if (194 <=? s0) && (s0 <=? 223) then Some (2%nat, 128, 191)
  else if s0 =? 224 then Some (3%nat, 160, 191)
  else if (225 <=? s0) && (s0 <=? 236) then Some (3%nat, 128, 191)
  else if s0 =? 237 then Some (3%nat, 128, 159)
  else if (238 <=? s0) && (s0 <=? 239) then Some (3%nat, 128, 191)
  else if s0 =? 240 then Some (4%nat, 144, 191)
  else if (241 <=? s0) && (s0 <=? 243) then Some (4%nat, 128, 191)
  else if s0 =? 244 then Some (4%nat, 128, 143)
  else None.

Definition is_cont (b : Z) : bool := (128 <=? b) && (b <=? 191).

Definition DecodeRuneInString (s : list Z) : Z * Z :=
  match s with
  | [] => (RuneError, 0)
  | s0 :: rest =>
      if s0 <? RuneSelf then (s0, 1) else
      match first_info s0 with
      | None => (RuneError, 1)
      | Some (sz, lo, hi) =>
          if (length s <? sz)%nat then (RuneError, 1) else
          match rest with
          | s1 :: rest1 =>
              if (s1 <? lo) || (hi <? s1) then (RuneError, 1)
              else if (sz <=? 2)%nat then
                (Z.lor (Z.shiftl (Z.land s0 31) 6) (Z.land s1 63), 2)
              else match rest1 with
                   | s2 :: rest2 =>
                       if negb (is_cont s2) then (RuneError, 1)
                       else if (sz <=? 3)%nat then
                         (Z.lor (Z.lor (Z.shiftl (Z.land s0 15) 12)
                                       (Z.shiftl (Z.land s1 63) 6))
                                (Z.land s2 63), 3)
                       else match rest2 with
                            | s3 :: _ =>
                                if negb (is_cont s3) then (RuneError, 1)
                                else (Z.lor (Z.lor (Z.lor (Z.shiftl (Z.land s0 7) 18)
                                                          (Z.shiftl (Z.land s1 63) 12))
                                                   (Z.shiftl (Z.land s2 63) 6))
                                            (Z.land s3 63), 4)
                            | [] => (RuneError, 1)
                            end
                   | [] => (RuneError, 1)
                   end
          | [] => (RuneError, 1)
          end
      end
  end.

(** Go's [string(r)] conversion: the UTF-8 encoding of [r], or of
    U+FFFD when [r] is not a valid rune. *)
Definition encode_rune (r : Z) : list Z :=
  let r := if (r <? 0) || (MaxRune <? r) || (55296 <=? r) && (r <=? 57343)
           then RuneError else r in
  if r <? 128 then [r]
  else if r <? 2048 then [Z.lor 192 (Z.shiftr r 6); Z.lor 128 (Z.land r 63)]
  else if r <? 65536 then
    [Z.lor 224 (Z.shiftr r 12); Z.lor 128 (Z.land (Z.shiftr r 6) 63);
     Z.lor 128 (Z.land r 63)]
  else
    [Z.lor 240 (Z.shiftr r 18); Z.lor 128 (Z.land (Z.shiftr r 12) 63);
     Z.lor 128 (Z.land (Z.shiftr r 6) 63); Z.lor 128 (Z.land r 63)].

Definition string_of_bytes (bs : list Z) : string :=
  String.string_of_list_ascii (map (fun b => Ascii.ascii_of_nat (Z.to_nat b)) bs).

Definition string_of_rune (r : Z) : string := string_of_bytes (encode_rune r).

End Unicode.

(* ------------------------------------------------------------------ *)
(** ** [token.IsIdentifier], which ranges over the runes of a string *)

Module TokenIdent.
Import Token Unicode.

(** The bytes of a Go string. *)
Definition string_bytes (s : string) : list Z :=
  map chr (String.list_ascii_of_string s).

Section Ident.
Variable isLetterAbove : Z -> bool.
Variable isDigitAbove : Z -> bool.

(** [for i, c := range name { if !unicode.IsLetter(c) && (i == 0 || !unicode.IsDigit(c)) && c != '_' { return false } }]:
    [range] decodes one rune at byte offset [i] (an invalid byte is
    [RuneError] of width 1) and moves on by its width; [n] bounds the
    iterations ([n = len(name)] is enough: every width is at least 1). *)
Fixpoint identRunes (n : nat) (i : Z) (bs : list Z) : bool :=
  match n, bs with
  | O, _ => true
  | _, [] => true
  | S n', _ =>
      let '(c, w) := DecodeRuneInString bs in
      if negb (IsLetter isLetterAbove c) && ((i =? 0) || negb (IsDigit isDigitAbove c))
         && negb (c =? chr "_")
      then false
      else identRunes n' (i + w) (drop (Z.to_nat w) bs)
  end.

(** [func IsIdentifier(name string) bool]. *)
Definition IsIdentifier (name : string) : bool :=
  identRunes (String.length name) 0 (string_bytes name)
  && negb (String.eqb name "") && negb (Token.IsKeyword name).

End Ident.

End TokenIdent.

(* ------------------------------------------------------------------ *)
(** ** Package [lexer]: the [lexer] struct and its primitives *)

Module Lexer.
Import Token Unicode.

Inductive lexError := ErrNUL | ErrBOM | ErrEnc.

Definition eof : Z := -1.
Definition bom : Z := 65279.  (* 0xFEFF *)

(** The double-quote rune, U+0022. *)
Definition dquote : Z := 34.

(** The [lexer] struct.  The token channel [Tokens] is the sequence of
    tokens sent on it so far together with whether it was closed; the
    error handler [err] is either nil ([errSet = false]) or records each
    call [err(pos, e)] in [errCalls]. *)
Record lexer := mkLexer {
  src : string;
  ch : Z;
  wd : Z;
  insertSemi : bool;
  Tokens : list Token;
  closed : bool;
  errSet : bool;
  errCalls : list (Position * lexError);
  offset : Z;
  rdOffset : Z;
  start : Position;
  prev : Position;
  pos : Position;
  ErrCount : Z
}.

(** [l.src[i]]: the byte at index [i] as a rune (callers index in range). *)
Definition byte_at (s : string) (i : Z) : Z :=
  match String.get (Z.to_nat i) s with
  | Some a => chr a
  | None => 0
  end.

(** [l.src[i:]] as bytes. *)
Definition bytes_from (s : string) (i : Z) : list Z :=
  map chr (String.list_ascii_of_string (String.substring (Z.to_nat i) (String.length s) s)).

Definition src_len (l : lexer) : Z := Z.of_nat (String.length (src l)).

(** [func (l *lexer) atEnd() bool]. *)
Definition atEnd (l : lexer) : bool := src_len l <=? rdOffset l.

(** [func (l *lexer) literal() string]: [l.src[l.offset:l.rdOffset]]. *)
Definition literal (l : lexer) : string :=
  String.substring (Z.to_nat (offset l)) (Z.to_nat (rdOffset l - offset l)) (src l).

(** [func (l *lexer) ignore()]. *)
Definition ignore (l : lexer) : lexer :=
  {| src := src l; ch := ch l; wd := wd l; insertSemi := insertSemi l;
     Tokens := Tokens l; closed := closed l; errSet := errSet l;
     errCalls := errCalls l; offset := rdOffset l; rdOffset := rdOffset l;
     start := pos l; prev := prev l; pos := pos l; ErrCount := ErrCount l |}.

(** [func (l *lexer) emit(t token.Type)]: send the token, then [ignore]. *)
Definition emit (t : Z) (l : lexer) : lexer :=
  ignore
  {| src := src l; ch := ch l; wd := wd l; insertSemi := insertSemi l;
     Tokens := Tokens l ++ [{| Type_ := t; Literal := literal l; Position_ := start l |}];
     closed := closed l; errSet := errSet l;
     errCalls := errCalls l; offset := offset l; rdOffset := rdOffset l;
     start := start l; prev := prev l; pos := pos l; ErrCount := ErrCount l |}.

(** [func (l *lexer) error(err error)]. *)
Definition error (e : lexError) (l : lexer) : lexer :=
  {| src := src l; ch := ch l; wd := wd l; insertSemi := insertSemi l;
     Tokens := Tokens l; closed := closed l; errSet := errSet l;
     errCalls := if errSet l then errCalls l ++ [(pos l, e)] else errCalls l;
     offset := offset l; rdOffset := rdOffset l;
     start := start l; prev := prev l; pos := pos l; ErrCount := ErrCount l + 1 |}.

(** [func (l *lexer) peek() rune]. *)
Definition peek (l : lexer) : Z :=
  if atEnd l then eof else byte_at (src l) (rdOffset l).

(** The [advance:] label of [consume]. *)
Definition advance (r w : Z) (l : lexer) : lexer :=
  let p := {| Line := Line (pos l); Col := Col (pos l) + w |} in
  {| src := src l; ch := r; wd := w; insertSemi := insertSemi l;
     Tokens := Tokens l; closed := closed l; errSet := errSet l;
     errCalls := errCalls l; offset := offset l; rdOffset := rdOffset l + w;
     start := start l; prev := pos l;
     pos := if r =? chr "010"%char then NextLine p else p;
     ErrCount := ErrCount l |}.

(** [func (l *lexer) consume()]. *)
Definition consume (l : lexer) : lexer :=
  if atEnd l then
    {| src := src l; ch := eof; wd := 0; insertSemi := insertSemi l;
       Tokens := Tokens l; closed := closed l; errSet := errSet l;
       errCalls := errCalls l; offset := offset l; rdOffset := rdOffset l;
       start := start l; prev := prev l; pos := pos l; ErrCount := ErrCount l |}
  else
    let r := byte_at (src l) (rdOffset l) in
    if r =? 0 then advance r 1 (error ErrNUL l)
    else if r <? RuneSelf then advance r 1 l
    else
      let '(r, w) := DecodeRuneInString (bytes_from (src l) (rdOffset l)) in
      if (r =? RuneError) && (w =? 1) then advance r w (error ErrEnc l)
      else if (r =? bom) && (0 <? offset l) then advance r w (error ErrBOM l)
      else advance r w l.

(** [func (l *lexer) backup()]. *)
Definition backup (l : lexer) : lexer :=
  {| src := src l; ch := ch l; wd := wd l; insertSemi := insertSemi l;
     Tokens := Tokens l; closed := closed l; errSet := errSet l;
     errCalls := errCalls l; offset := offset l; rdOffset := rdOffset l - wd l;
     start := start l; prev := prev l; pos := prev l; ErrCount := ErrCount l |}.

(** [close(l.Tokens)]. *)
Definition close (l : lexer) : lexer :=
  {| src := src l; ch := ch l; wd := wd l; insertSemi := insertSemi l;
     Tokens := Tokens l; closed := true; errSet := errSet l;
     errCalls := errCalls l; offset := offset l; rdOffset := rdOffset l;
     start := start l; prev := prev l; pos := pos l; ErrCount := ErrCount l |}.

(** [for p(l.peek()) { l.consume() }], bounded by [n] iterations; every
    predicate used below is false on [eof], so [n = len(src)] is enough. *)
Fixpoint consume_while (p : Z -> bool) (n : nat) (l : lexer) : lexer :=
  match n with
  | O => l
  | S n' => if p (peek l) then consume_while p n' (consume l) else l
  end.

Definition src_fuel (l : lexer) : nat := String.length (src l).

(* ------------------------------------------------------------------ *)
(** ** [state.go]: the state functions *)

(** [type stateFunc func(l *lexer) stateFunc]: the state functions of the
    file, [None] standing for the nil [stateFunc]. *)
Inductive stateFunc := StBase | StStmt | StNum | StStmtOp | StCmd.

Section States.
Variable isLetterAbove : Z -> bool.
Variable isDigitAbove : Z -> bool.

Local Abbreviation IsLetter := (IsLetter isLetterAbove).
Local Abbreviation IsDigit := (IsDigit isDigitAbove).

(** [func isAlphabet(r rune) bool]: [r > 'A' && r < 'Z' || r > 'a' && r < 'z']. *)
Definition isAlphabet (r : Z) : bool :=
  (chr "A" <? r) && (r <? chr "Z") || (chr "a" <? r) && (r <? chr "z").

Definition isIdentStart (r : Z) : bool := (r =? chr "_") || IsLetter r.

Definition isIdent (r : Z) : bool := isIdentStart r || IsDigit r.

(** Modelled from the spec: [consumeSpace] (not in the sources):
    "whitespace is skipped and never emitted". *)
Definition consumeSpace (l : lexer) : lexer :=
  ignore (consume_while IsSpace (src_fuel l) l).

(** Modelled from the spec: [consumeWord] (not in the sources): "if it
    starts a keyword-shaped word, consume the word". *)
Definition consumeWord (l : lexer) : lexer :=
  consume_while isAlphabet (src_fuel l) l.

(** Modelled from the spec: [consumeIdent] (not in the sources): "an
    identifier-starting rune begins an identifier scan". *)
Definition consumeIdent (l : lexer) : lexer :=
  consume_while isIdent (src_fuel l) l.

(** Modelled from the spec: [consumeString] (not in the sources): "a
    double-quote begins a string scan", up to and with the closing quote. *)
Definition consumeString (l : lexer) : lexer :=
  let l := consume_while (fun r => negb (r =? dquote) && negb (r =? eof)) (src_fuel l) l in
  if peek l =? dquote then consume l else l.

(** Modelled from the spec: [consumeComment] (not in the sources): "`#`
    begins a line comment consumed through end of line". *)
Definition consumeComment (l : lexer) : lexer :=
  let l := consume_while (fun r => negb (r =? chr "010") && negb (r =? eof)) (src_fuel l) l in
  if peek l =? chr "010" then consume l else l.

(** [func lexBase(l *lexer) stateFunc]. *)
Definition lexBase (l : lexer) : lexer * option stateFunc :=
  let r := peek l in
  let l := if IsSpace r then consumeSpace l else l in
  if isAlphabet r then
    let l := consumeWord l in
    let word := literal l in
    if Token.IsKeyword word then (emit (Token.Lookup word) l, Some StStmt)
    else (backup l, Some StCmd)
  else (l, Some StCmd).

(** [func lexStmt(l *lexer) stateFunc]. *)
Definition lexStmt (l : lexer) : lexer * option stateFunc :=
  let l := consume l in
  if IsSpace (ch l) then (consumeSpace l, Some StStmt)
  else if isIdentStart (ch l) then
    let l := consumeIdent l in (emit (Token.Lookup (literal l)) l, Some StStmt)
  else if IsDigit (ch l) then (l, Some StNum)
  else if ch l =? dquote then (emit STRING (consumeString l), Some StStmt)
  else if Token.IsOperator (string_of_rune (ch l)) then (l, Some StStmtOp)
  else if ch l =? chr "#" then (emit COMMENT (consumeComment l), Some StStmt)
  else if ch l =? eof then (emit EOF l, None)
  else (emit ILLEGAL l, Some StStmt).

(** [func lexNum(l *lexer) stateFunc]. *)
Definition lexNum (l : lexer) : lexer * option stateFunc :=
  (emit FLOAT (consume_while IsDigit (src_fuel l) l), Some StStmt).

(** The switch of [lexStmtOp]; [t] keeps its zero value ([Illegal]) when
    no case matches. *)
Definition stmtOpType (c : Z) : Z :=
  if c =? chr "+" then ADD
  else if c =? chr "-" then SUB
  else if c =? chr "*" then MUL
  else if c =? chr "/" then QUO
  else if c =? chr "%" then REM
  else if c =? chr "&" then AND
  else if c =? chr "|" then OR
  else if c =? chr "^" then XOR
  else if c =? chr "<" then LSS
  else if c =? chr ">" then GTR
  else if c =? chr "=" then ASSIGN
  else if c =? chr "!" then NOT
  else if c =? chr "(" then LPAREN
  else if c =? chr "[" then LPAREN
  else if c =? chr "{" then LBRACE
  else if c =? chr "," then COMMA
  else if c =? chr ")" then RPAREN
  else if c =? chr "]" then RBRACK
  else if c =? chr "}" then RBRACE
  else if c =? chr ";" then SEMICOLON
  else if c =? chr ":" then COLON
  else Illegal.

(** [func lexStmtOp(l *lexer) stateFunc]. *)
Definition lexStmtOp (l : lexer) : lexer * option stateFunc :=
  (emit (stmtOpType (ch l)) l, Some StStmt).

(** [func lexCmd(l *lexer) stateFunc]. *)
Definition lexCmd (l : lexer) : lexer * option stateFunc := (l, None).

Definition step (s : stateFunc) (l : lexer) : lexer * option stateFunc :=
  match s with
  | StBase => lexBase l
  | StStmt => lexStmt l
  | StNum => lexNum l
  | StStmtOp => lexStmtOp l
  | StCmd => lexCmd l
  end.

(** [func (l *lexer) run()]: [for state := lexBase; state != nil; { state = state(l) }]
    then [close(l.Tokens)]; [None] when [fuel] steps did not suffice. *)
Fixpoint run_from (fuel : nat) (s : option stateFunc) (l : lexer) : option lexer :=
  match s with
  | None => Some (close l)
  | Some f =>
      match fuel with
      | O => None
      | S fuel' => let '(l', s') := step f l in run_from fuel' s' l'
      end
  end.

(** The lexer built by [Lex(src, err)]; [hasErr] tells whether [err] is non-nil. *)
Definition newLexer (s : string) (hasErr : bool) : lexer :=
  let origin := {| Line := 1; Col := 1 |} in
  {| src := s; ch := 0; wd := 0; insertSemi := false;
     Tokens := []; closed := false; errSet := hasErr; errCalls := [];
     offset := 0; rdOffset := 0; start := origin;
     prev := {| Line := 0; Col := 0 |}; pos := origin; ErrCount := 0 |}.

(** [Lex(src, err)] with the goroutine run to completion: every [lexStmt]
    step consumes at least one byte or ends the machine, so
    [3 * len(src) + 4] steps always suffice. *)
Definition Lex (s : string) (hasErr : bool) : option lexer :=
  run_from (3 * String.length s + 4) (Some StBase) (newLexer s hasErr).

End States.

End Lexer.


(* ------------------------------------------------------------------ *)
(** ** Package [ast] *)

Module Ast.
Import Token.

Local Set Warnings "-register-all".

Inductive Command :=
| LiteralCommand (Cmd : Token) (Args : list Token)
| UnaryCommand (Operator : Token) (Right : Command)
| BinaryCommand (Left : Command) (Operator : Token) (Right : Command)
| LogicalCommand (Left : Command) (Operator : Token) (Right : Command).

(** A Go [ast.Statement] interface value, possibly nil ([None]). *)
Inductive Statement :=
| BlockStatement (Statements : list (option Statement))
| CmdStatement (Command : Command).

Definition Program := list (option Statement).

End Ast.

(* ------------------------------------------------------------------ *)
(** ** Package [parser] *)

Module Parser.
Import Token Ast.

(** The messages passed to [p.error]. *)
Inductive perror :=
| IllegalAtLineStart (t : Z)     (* "illegal token %s at line start" *)
| ExpectedToken (t expected : Z) (* "unexpected token %s, expected %s" *)
| UnexpectedToke (t : Z).        (* "unexpected toke %s" *)

(** Modelled from the spec: the [parser] struct (not in the sources):
    [tok] is "the token just consumed" ([current]), [toks] the tokens
    not yet consumed, whose head is the lookahead [pTok], and [errors]
    the syntax errors reported so far. *)
Record parser := mkParser { tok : Token; toks : list Token; errors : list perror }.

(** The zero [Token], what a receive on the closed stream yields. *)
Definition zeroToken : Token :=
  {| Type_ := 0; Literal := ""; Position_ := {| Line := 0; Col := 0 |} |}.

(** Modelled from the spec: [pTok], "kind of the next unconsumed token". *)
Definition pTok (p : parser) : Z :=
  match toks p with t :: _ => Type_ t | [] => Type_ zeroToken end.

(** Modelled from the spec: [current], "token just consumed". *)
Definition current (p : parser) : Token := tok p.

(** Modelled from the spec: [next], "advance the window by one token". *)
Definition next (p : parser) : parser :=
  match toks p with
  | t :: r => {| tok := t; toks := r; errors := errors p |}
  | [] => {| tok := zeroToken; toks := []; errors := errors p |}
  end.

(** Modelled from the spec: [match(kind)], "conditionally advance only if
    the peeked kind equals the expected kind, returning whether it
    matched". *)
Definition match_ (k : Z) (p : parser) : bool * parser :=
  if pTok p =? k then (true, next p) else (false, p).

(** Modelled from the spec: [atEnd]: the stream is exhausted, or its next
    token is the end-of-input token, after which the lexer closes it. *)
Definition atEnd (p : parser) : bool :=
  match toks p with [] => true | t :: _ => Type_ t =? EOF end.

(** Modelled from the spec: [error], a syntax error is reported. *)
Definition error (e : perror) (p : parser) : parser :=
  {| tok := tok p; toks := toks p; errors := errors p ++ [e] |}.

(** [for p.match(STRING) { lit.Args = append(lit.Args, p.current()) }],
    bounded by [n] iterations ([n = len(toks)] is enough: each one
    consumes a token). *)
Fixpoint litArgs (n : nat) (p : parser) : list Token * parser :=
  match n with
  | O => ([], p)
  | S n' =>
      let '(ok, p1) := match_ STRING p in
      if ok then let '(args, p2) := litArgs n' p1 in (current p1 :: args, p2)
      else ([], p)
  end.

(** [func (p *parser) parseCmdLit() ast.Command]. *)
Definition parseCmdLit (p : parser) : Command * parser :=
  let '(ok, p) := match_ STRING p in
  let p := if ok then p else error (UnexpectedToke (pTok p)) p in
  let cmd := current p in
  let '(args, p) := litArgs (length (toks p)) p in
  (LiteralCommand cmd args, p).

(** The loop shared by [parseCmdLor], [parseCmdAnd] and [parseCmdPipe]:
    [for p.match(op) { tok := p.current(); rhs := sub(); expr = mk(expr, tok, rhs) }],
    bounded by [n] iterations (each one consumes the operator). *)
Fixpoint foldLoop (mk : Command -> Token -> Command -> Command) (op : Z)
    (sub : parser -> Command * parser) (n : nat) (expr : Command) (p : parser)
    : Command * parser :=
  match n with
  | O => (expr, p)
  | S n' =>
      let '(ok, p1) := match_ op p in
      if ok then
        let t := current p1 in
        let '(rhs, p2) := sub p1 in
        foldLoop mk op sub n' (mk expr t rhs) p2
      else (expr, p)
  end.

(** [func (p *parser) parseCmdPipe() ast.Command]. *)
Definition parseCmdPipe (p : parser) : Command * parser :=
  let '(expr, p) := parseCmdLit p in
  foldLoop BinaryCommand OR parseCmdLit (length (toks p)) expr p.

(** [func (p *parser) parseCmdNot() ast.Command]. *)
Definition parseCmdNot (p : parser) : Command * parser :=
  let '(ok, p1) := match_ NOT p in
  if ok then
    let t := current p1 in
    let '(rhs, p2) := parseCmdPipe p1 in
    (UnaryCommand t rhs, p2)
  else parseCmdPipe p.

(** [func (p *parser) parseCmdAnd() ast.Command]. *)
Definition parseCmdAnd (p : parser) : Command * parser :=
  let '(expr, p) := parseCmdNot p in
  foldLoop LogicalCommand LAND parseCmdNot (length (toks p)) expr p.

(** [func (p *parser) parseCmdLor() ast.Command]. *)
Definition parseCmdLor (p : parser) : Command * parser :=
  let '(expr, p) := parseCmdAnd p in
  foldLoop LogicalCommand LOR parseCmdAnd (length (toks p)) expr p.

(** [func (p *parser) parseCommand() ast.Command]. *)
Definition parseCommand (p : parser) : Command * parser := parseCmdLor p.

(** [func (p *parser) parseCmdStmt() *ast.CmdStatement]. *)
Definition parseCmdStmt (p : parser) : Statement * parser :=
  let '(c, p) := parseCommand p in (CmdStatement c, p).

(** The terminator check closing [parseStatement]. *)
Definition terminator (p : parser) : parser :=
  let '(ok, p1) := match_ SEMICOLON p in
  if ok then p1 else error (ExpectedToken (pTok p1) SEMICOLON) p1.

(** [func (p *parser) parseStatement() ast.Statement] and the loop of
    [parseBlockStmt] ([for p.next(); p.tok != token.RBRACE; p.next() {...}]),
    which need not terminate: [fuel] bounds the calls, [None] when it
    runs out. *)
Fixpoint parseStatement (fuel : nat) (p : parser) : option (option Statement * parser) :=
  match fuel with
  | O => None
  | S f =>
      let k := pTok p in
      let body :=
        if k =? LBRACE then
          match blockLoop f [] (next p) with
          | Some (b, p') => Some (Some b, p')
          | None => None
          end
        else if (k =? LET) || (k =? IF) || (k =? FOR) then Some (None, p)
        else if (k =? STRING) || (k =? NOT) then
          let '(s, p') := parseCmdStmt p in Some (Some s, p')
        else None in
      if (k =? LBRACE) || (k =? LET) || (k =? IF) || (k =? FOR)
         || (k =? STRING) || (k =? NOT) then
        match body with
        | Some (stmt, p') => Some (stmt, terminator p')
        | None => None
        end
      else
        (* default: report, skip one token, return nil *)
        Some (None, next (error (IllegalAtLineStart k) p))
  end
with blockLoop (fuel : nat) (acc : list (option Statement)) (p : parser)
    : option (Statement * parser) :=
  match fuel with
  | O => None
  | S f =>
      if Type_ (tok p) =? RBRACE then Some (BlockStatement acc, p)
      else match parseStatement f p with
           | Some (s, p') => blockLoop f (acc ++ [s]) (next p')
           | None => None
           end
  end.

(** [func (p *parser) parseBlockStmt() *ast.BlockStatement]. *)
Definition parseBlockStmt (fuel : nat) (p : parser) : option (Statement * parser) :=
  blockLoop fuel [] (next p).

(** [func (p *parser) parseProgram() *ast.Program]: [for !p.atEnd() {...}]. *)
Fixpoint programLoop (fuel : nat) (acc : Program) (p : parser) : option (Program * parser) :=
  match fuel with
  | O => None
  | S f =>
      if atEnd p then Some (acc, p)
      else match parseStatement f p with
           | Some (s, p') => programLoop f (acc ++ [s]) p'
           | None => None
           end
  end.

Definition parseProgram (fuel : nat) (p : parser) : option (Program * parser) :=
  programLoop fuel [] p.

(** Modelled from the spec: a parser reading the token stream [ts]
    ("source text -> Lexer -> token stream -> Parser"). *)
Definition newParser (ts : list Token) : parser :=
  {| tok := zeroToken; toks := ts; errors := [] |}.

Section Pipeline.
Variable isLetterAbove : Z -> bool.
Variable isDigitAbove : Z -> bool.

(** Modelled from the spec: lexing [src] and parsing the tokens. *)
Definition Parse (fuel : nat) (src : string) : option (Program * parser) :=
  match Lexer.Lex isLetterAbove isDigitAbove src false with
  | Some l => parseProgram fuel (newParser (Lexer.Tokens l))
  | None => None
  end.
End Pipeline.

End Parser.


(* ================================================================== *)
(** * Properties *)

(* ------------------------------------------------------------------ *)
(** ** The kind-to-spelling table *)

Module TokenFacts.
Import Token.

(** The kinds with a non-empty canonical spelling are in range. *)
Definition has_spelling (t : Z) : Prop :=
  0 <= t < Z.of_nat (length tokens) /\ tokens_at t <> ""%string.

Lemma token_String_table :
  forallb (fun n => let t := Z.of_nat n in
                    String.eqb (tokens_at t) "" || (token (String_ t) =? t))
          (seq 0 64) = true.
Proof. vm_compute. reflexivity. Qed.

Lemma Lookup_keyword_table :
  forallb (fun n => let t := Z.of_nat n in Lookup (tokens_at t) =? t) (seq 55 9) = true.
Proof. vm_compute. reflexivity. Qed.

Lemma fill_keywords_lookup_other (n : nat) :
  forall (i : Z) (m : gmap string Z) (s : string),
  (forall k : nat, (k < n)%nat -> tokens_at (i + Z.of_nat k) <> s) ->
  fill_keywords n i m !! s = m !! s.
Proof.
  induction n as [|n IH]; intros i m s Hk; simpl; [reflexivity|].
  rewrite IH.
  - apply lookup_insert_ne. specialize (Hk 0%nat ltac:(lia)).
    rewrite Z.add_0_r in Hk. exact Hk.
  - intros k Hlt. specialize (Hk (S k) ltac:(lia)).
    replace (i + 1 + Z.of_nat k) with (i + Z.of_nat (S k)) by lia. exact Hk.
Qed.

(** C9: [token(t.String()) = t] for every kind with a non-empty spelling;
    [Lookup] maps each keyword spelling to its keyword kind and every
    other string to [Identifier]. *)
Theorem token_table_bidirectional :
  (forall t : Z, has_spelling t -> token (String_ t) = t) /\
  (forall t : Z, IsKeyword_ t = true -> Lookup (tokens_at t) = t) /\
  (forall s : string,
     (forall t : Z, IsKeyword_ t = true -> tokens_at t <> s) ->
     Lookup s = Identifier).
Proof.
  split; [|split].
  - intros t [Hr Hne].
    pose proof token_String_table as Hc. rewrite forallb_forall in Hc.
    specialize (Hc (Z.to_nat t)). rewrite Z2Nat.id in Hc by lia.
    assert (Hin : In (Z.to_nat t) (seq 0 64)).
    { apply in_seq. simpl in Hr. lia. }
    specialize (Hc Hin). apply orb_true_iff in Hc as [Hc|Hc].
    + apply String.eqb_eq in Hc. contradiction.
    + apply Z.eqb_eq in Hc. exact Hc.
  - intros t Hk. unfold IsKeyword_, keywordBeg, keywordEnd in Hk.
    apply andb_true_iff in Hk as [H1 H2]. apply Z.ltb_lt in H1, H2.
    pose proof Lookup_keyword_table as Hc. rewrite forallb_forall in Hc.
    specialize (Hc (Z.to_nat t)). rewrite Z2Nat.id in Hc by lia.
    assert (Hin : In (Z.to_nat t) (seq 55 9)) by (apply in_seq; lia).
    specialize (Hc Hin). apply Z.eqb_eq in Hc. exact Hc.
  - intros s Hs. unfold Lookup, keywords.
    rewrite fill_keywords_lookup_other; [reflexivity|].
    intros k Hk. apply Hs. unfold IsKeyword_, keywordBeg, keywordEnd.
    assert (Hk9 : (k < 9)%nat) by exact Hk.
    apply andb_true_iff. split; apply Z.ltb_lt; lia.
Qed.

End TokenFacts.

(* ------------------------------------------------------------------ *)
(** ** The lexer *)

Module LexerFacts.
Import Token Unicode Lexer.

(** Lexing in statement mode from [l]: [lexStmt] hands over to
    [lexStmtOp], which emits a token of kind [k] and returns to [lexStmt]. *)
Definition stmt_op_emits (La Da : Z -> bool) (l : lexer) (k : Z) : Prop :=
  exists l1 l2,
    lexStmt La Da l = (l1, Some StStmtOp) /\
    lexStmtOp l1 = (l2, Some StStmt) /\
    map Type_ (Tokens l2) = map Type_ (Tokens l) ++ [k].

Lemma lexStmt_ascii_op (La Da : Z -> bool) (l : lexer) (c : Z) :
  atEnd l = false ->
  byte_at (src l) (rdOffset l) = c ->
  0 < c < RuneSelf ->
  IsSpace c = false -> isIdentStart La c = false -> IsDigit Da c = false ->
  c <> dquote ->
  Token.IsOperator (string_of_rune c) = true ->
  stmt_op_emits La Da l (stmtOpType c).
Proof.
  intros Hend Hb Hc Hsp Hid Hdg Hq Hop.
  unfold stmt_op_emits, lexStmt, consume.
  rewrite Hend, Hb.
  destruct (Z.eqb_spec c 0) as [E|_]; [lia|].
  destruct (Z.ltb_spec c RuneSelf) as [_|E]; [|lia].
  cbn [ch advance]. rewrite Hsp, Hid, Hdg.
  destruct (Z.eqb_spec c (dquote)) as [E|_]; [contradiction|].
  rewrite Hop.
  eexists; eexists; split; [reflexivity|]. split; [reflexivity|].
  unfold emit, ignore. cbn [Tokens]. rewrite map_app. reflexivity.
Qed.

(** C10: in statement mode, the character [\[] is lexed as a token of
    kind [LeftParen], the kind also emitted for [(], while [\]] is lexed
    as [RightBrack]. *)
Theorem lexStmt_left_bracket_is_lparen (La Da : Z -> bool) (l : lexer) :
  atEnd l = false ->
  (byte_at (src l) (rdOffset l) = chr "[" -> stmt_op_emits La Da l LeftParen) /\
  (byte_at (src l) (rdOffset l) = chr "(" -> stmt_op_emits La Da l LeftParen) /\
  (byte_at (src l) (rdOffset l) = chr "]" -> stmt_op_emits La Da l RightBrack).
Proof.
  intros Hend. split; [|split]; intros Hb;
    (eapply lexStmt_ascii_op in Hb; [exact Hb | exact Hend | ..]);
    try reflexivity; cbv; try discriminate; split; reflexivity.
Qed.

(** The lexer's bookkeeping steps leave the token stream untouched. *)
Lemma Tokens_consume (l : lexer) : Tokens (consume l) = Tokens l.
Proof.
  unfold consume. destruct (atEnd l); [reflexivity|].
  destruct (_ =? 0); [reflexivity|]. destruct (_ <? RuneSelf); [reflexivity|].
  destruct (DecodeRuneInString _) as [r w].
  destruct (_ && _); [reflexivity|]. destruct (_ && _); reflexivity.
Qed.

Lemma Tokens_consume_while (p : Z -> bool) (n : nat) :
  forall l, Tokens (consume_while p n l) = Tokens l.
Proof.
  induction n as [|n IH]; intros l; simpl; [reflexivity|].
  destruct (p (peek l)); [rewrite IH; apply Tokens_consume | reflexivity].
Qed.

Lemma Tokens_consumeSpace (l : lexer) : Tokens (consumeSpace l) = Tokens l.
Proof. unfold consumeSpace, ignore. cbn [Tokens]. apply Tokens_consume_while. Qed.

(** The Unicode tables restricted to Latin-1 (no letter or digit above
    U+00FF); the inputs below are ASCII, where the tables are not used. *)
Definition latin1_only : Z -> bool := fun _ => false.

(** When the source is empty or its first byte is not a letter in
    [B..Y] or [b..y], [lexBase] hands over to [lexCmd], which stops the
    machine: no token at all is emitted and the stream is closed. *)
Lemma Lex_non_letter_start_emits_nothing (La Da : Z -> bool) (s : string) (hasErr : bool) :
  isAlphabet (peek (newLexer s hasErr)) = false ->
  exists l, Lex La Da s hasErr = Some l /\ Tokens l = [] /\ closed l = true.
Proof.
  intros Ha. unfold Lex.
  replace (3 * String.length s + 4)%nat with (S (S (S (3 * String.length s + 1)))) by lia.
  cbn [run_from step]. unfold lexBase. rewrite Ha. cbn [step lexCmd run_from].
  eexists; split; [reflexivity|]. unfold close. cbn [Tokens closed].
  split; [|reflexivity].
  destruct (IsSpace _); [rewrite Tokens_consumeSpace|]; reflexivity.
Qed.

Lemma IsSpace_not_alphabet (r : Z) : IsSpace r = true -> isAlphabet r = false.
Proof.
  intros Hs. destruct (isAlphabet r) eqn:Ha; [exfalso|reflexivity].
  unfold isAlphabet in Ha. change (chr "A") with 65 in Ha. change (chr "Z") with 90 in Ha.
  change (chr "a") with 97 in Ha. change (chr "z") with 122 in Ha.
  rewrite Bool.orb_true_iff, !Bool.andb_true_iff, !Z.ltb_lt in Ha.
  unfold IsSpace, MaxLatin1 in Hs.
  destruct (Z.leb_spec 0 r), (Z.leb_spec r 255); cbn in Hs;
    rewrite ?Bool.orb_true_iff, ?Bool.andb_true_iff, ?Z.leb_le, ?Z.eqb_eq in Hs; lia.
Qed.

(** C2, failing input: for every source made only of whitespace (the
    empty source included), the lexer emits no token at all, in
    particular no end-of-input token: [lexBase] does not start a word on
    whitespace and hands over to [lexCmd], which returns nil, so the
    machine stops and the token stream is closed empty. *)
Theorem Lex_whitespace_no_token (La Da : Z -> bool) (s : string) (hasErr : bool) :
  (forall i : nat, (i < String.length s)%nat -> IsSpace (byte_at s (Z.of_nat i)) = true) ->
  exists l, Lex La Da s hasErr = Some l /\ Tokens l = [] /\ closed l = true.
Proof.
  intros Hs. apply Lex_non_letter_start_emits_nothing.
  unfold peek. destruct (atEnd (newLexer s hasErr)) eqn:Hend; [reflexivity|].
  apply IsSpace_not_alphabet. apply (Hs 0%nat).
  unfold atEnd, src_len in Hend. cbn in Hend. apply Z.leb_gt in Hend. lia.
Qed.

(** A NUL byte or an invalid UTF-8 sequence is reported once, at the
    position of the offending byte, and skipped as one byte. *)
Lemma consume_reports_nul_or_encoding (l : lexer) :
  atEnd l = false ->
  (byte_at (src l) (rdOffset l) = 0 \/
   RuneSelf <= byte_at (src l) (rdOffset l) /\
   DecodeRuneInString (bytes_from (src l) (rdOffset l)) = (RuneError, 1)) ->
  ErrCount (consume l) = ErrCount l + 1 /\
  rdOffset (consume l) = rdOffset l + 1 /\
  exists e, errCalls (consume l) =
            if errSet l then errCalls l ++ [(pos l, e)] else errCalls l.
Proof.
  intros Hend Hb. unfold consume. rewrite Hend.
  destruct Hb as [Hb | [Hb Hd]].
  - rewrite Hb. cbn. split; [reflexivity|]. split; [reflexivity|].
    exists ErrNUL. reflexivity.
  - destruct (Z.eqb_spec (byte_at (src l) (rdOffset l)) 0) as [E|_].
    { unfold RuneSelf in Hb. lia. }
    destruct (Z.ltb_spec (byte_at (src l) (rdOffset l)) RuneSelf) as [E|_]; [lia|].
    rewrite Hd. cbn. split; [reflexivity|]. split; [reflexivity|].
    exists ErrEnc. reflexivity.
Qed.

Lemma lexStmt_left_bracket_is_lparen_witness :
  atEnd (newLexer "[" true) = false /\
  stmt_op_emits latin1_only latin1_only (newLexer "[" true) LeftParen.
Proof.
  split; [reflexivity|].
  exact (proj1 (lexStmt_left_bracket_is_lparen latin1_only latin1_only
                  (newLexer "[" true) eq_refl) eq_refl).
Defined.

Lemma Lex_whitespace_no_token_witness :
  (forall i : nat, (i < String.length " ")%nat -> IsSpace (byte_at " " (Z.of_nat i)) = true) /\
  exists l, Lex latin1_only latin1_only " "%string true = Some l /\
            Tokens l = [] /\ closed l = true.
Proof.
  assert (H : forall i : nat, (i < String.length " ")%nat ->
              IsSpace (byte_at " " (Z.of_nat i)) = true).
  { intros [|i] Hi; [reflexivity | cbn in Hi; lia]. }
  split; [exact H|].
  exact (Lex_whitespace_no_token latin1_only latin1_only " "%string true H).
Defined.

End LexerFacts.

(* ------------------------------------------------------------------ *)
(** ** The parser *)

Module ParserFacts.
Import Token Ast Parser.

(** The kind of the head of a token list, as [pTok] sees it. *)
Definition headKind (ts : list Token) : Z :=
  match ts with t :: _ => Type_ t | [] => Type_ zeroToken end.

(** A command literal in the token stream: a STRING command name
    followed by STRING arguments. *)
Definition is_lit (a : Token) (args : list Token) : Prop :=
  Type_ a = STRING /\ Forall (fun t => Type_ t = STRING) args.

(** [rest] cannot continue a command. *)
Definition stops (rest : list Token) : Prop :=
  ~ In (headKind rest) [STRING; OR; LAND; LOR].

Lemma last_cons_default (x t : Token) (l : list Token) :
  List.last (x :: l) t = List.last l x.
Proof.
  revert x. induction l as [|y l IH]; intros x; [reflexivity|].
  change (List.last (y :: l) t = List.last (y :: l) x).
  destruct l as [|z l']; [reflexivity|]. exact (IH x).
Qed.

Lemma litArgs_strings (aa : list Token) :
  forall (n : nat) (t : Token) (rest : list Token) (errs : list perror),
  Forall (fun u => Type_ u = STRING) aa ->
  headKind rest <> STRING -> (length aa <= n)%nat ->
  litArgs n (mkParser t (aa ++ rest) errs) = (aa, mkParser (List.last aa t) rest errs).
Proof.
  induction aa as [|x aa IH]; intros n t rest errs Hs Hr Hn.
  - destruct n as [|n]; [reflexivity|]. cbn [litArgs app]. unfold match_.
    replace (pTok _) with (headKind rest) by (destruct rest; reflexivity).
    destruct (Z.eqb_spec (headKind rest) STRING) as [E|_]; [contradiction|].
    reflexivity.
  - inversion Hs as [|? ? Hx Hs']; subst.
    destruct n as [|n]; [simpl in Hn; lia|].
    cbn [litArgs app]. unfold match_, pTok. cbn [toks]. rewrite Hx, Z.eqb_refl.
    unfold next. cbn [toks errors].
    rewrite IH by (simpl in Hn; auto with lia). rewrite last_cons_default. reflexivity.
Qed.

Lemma parseCmdLit_lit (a : Token) (aa rest : list Token) (t : Token) (errs : list perror) :
  is_lit a aa -> headKind rest <> STRING ->
  parseCmdLit (mkParser t (a :: aa ++ rest) errs)
  = (LiteralCommand a aa, mkParser (List.last aa a) rest errs).
Proof.
  intros [Ha Hs] Hr. unfold parseCmdLit, match_, pTok. cbn [toks].
  rewrite Ha, Z.eqb_refl. unfold next, current. cbn [toks tok errors].
  rewrite litArgs_strings; [reflexivity | exact Hs | exact Hr |].
  rewrite length_app. lia.
Qed.

Lemma foldLoop_stop mk op sub (n : nat) (e : Command) (p : parser) :
  pTok p <> op -> foldLoop mk op sub n e p = (e, p).
Proof.
  intros H. destruct n; [reflexivity|]. simpl. unfold match_.
  destruct (Z.eqb_spec (pTok p) op); [contradiction | reflexivity].
Qed.

Lemma foldLoop_more mk op sub (n : nat) (e : Command) (p : parser) :
  pTok p = op -> (1 <= n)%nat ->
  foldLoop mk op sub n e p =
  let '(r, p2) := sub (next p) in foldLoop mk op sub (Nat.pred n) (mk e (current (next p)) r) p2.
Proof.
  intros H Hn. destruct n as [|n]; [lia|]. simpl. unfold match_.
  rewrite H, Z.eqb_refl. reflexivity.
Qed.

Lemma parseCmdNot_no_bang (p : parser) :
  pTok p <> NOT -> parseCmdNot p = parseCmdPipe p.
Proof.
  intros H. unfold parseCmdNot, match_.
  destruct (Z.eqb_spec (pTok p) NOT); [contradiction | reflexivity].
Qed.

(** A single literal at the pipe, negation and conjunction levels. *)
Lemma parseCmdPipe_lit (a : Token) (aa rest : list Token) (t : Token) (errs : list perror) :
  is_lit a aa -> headKind rest <> STRING -> headKind rest <> OR ->
  parseCmdPipe (mkParser t (a :: aa ++ rest) errs)
  = (LiteralCommand a aa, mkParser (List.last aa a) rest errs).
Proof.
  intros Hl Hs Ho. unfold parseCmdPipe. rewrite parseCmdLit_lit by assumption.
  apply foldLoop_stop. exact Ho.
Qed.

Lemma parseCmdNot_lit (a : Token) (aa rest : list Token) (t : Token) (errs : list perror) :
  is_lit a aa -> headKind rest <> STRING -> headKind rest <> OR ->
  parseCmdNot (mkParser t (a :: aa ++ rest) errs)
  = (LiteralCommand a aa, mkParser (List.last aa a) rest errs).
Proof.
  intros Hl Hs Ho. rewrite parseCmdNot_no_bang.
  - apply parseCmdPipe_lit; assumption.
  - unfold pTok. simpl. destruct Hl as [-> _]. discriminate.
Qed.

Lemma parseCmdAnd_lit (a : Token) (aa rest : list Token) (t : Token) (errs : list perror) :
  is_lit a aa -> headKind rest <> STRING -> headKind rest <> OR -> headKind rest <> LAND ->
  parseCmdAnd (mkParser t (a :: aa ++ rest) errs)
  = (LiteralCommand a aa, mkParser (List.last aa a) rest errs).
Proof.
  intros Hl Hs Ho Ha. unfold parseCmdAnd. rewrite parseCmdNot_lit by assumption.
  apply foldLoop_stop. exact Ha.
Qed.

(** Lifting a result of a lower level to [parseCommand]. *)
Lemma parseCommand_of_And (p p' : parser) (e : Command) :
  parseCmdAnd p = (e, p') -> pTok p' <> LOR -> parseCommand p = (e, p').
Proof.
  intros H Ho. unfold parseCommand, parseCmdLor. rewrite H.
  apply foldLoop_stop. exact Ho.
Qed.

Lemma parseCommand_of_Not (p p' : parser) (e : Command) :
  parseCmdNot p = (e, p') -> pTok p' <> LAND -> pTok p' <> LOR -> parseCommand p = (e, p').
Proof.
  intros H Ha Ho. apply parseCommand_of_And; [|exact Ho].
  unfold parseCmdAnd. rewrite H. apply foldLoop_stop. exact Ha.
Qed.

Lemma pTok_mk (t : Token) (ts : list Token) (errs : list perror) :
  pTok (mkParser t ts errs) = headKind ts.
Proof. reflexivity. Qed.

Lemma next_mk (t u : Token) (ts : list Token) (errs : list perror) :
  next (mkParser t (u :: ts) errs) = mkParser u ts errs.
Proof. reflexivity. Qed.

Lemma stops_kinds (rest : list Token) :
  stops rest ->
  headKind rest <> STRING /\ headKind rest <> OR /\
  headKind rest <> LAND /\ headKind rest <> LOR.
Proof.
  intros H. unfold stops in H.
  repeat split; intros E; apply H; rewrite E; simpl; tauto.
Qed.

Ltac kind_neq :=
  try assumption;
  repeat match goal with
  | H : is_lit _ _ |- _ => destruct H as [? ?]
  end;
  rewrite ?pTok_mk; simpl headKind;
  repeat match goal with H : Type_ _ = _ |- _ => rewrite H end;
  unfold STRING, OR, LAND, LOR, NOT, String, Or, LogicalAnd, LogicalOr, Not;
  first [assumption | discriminate | reflexivity | simpl; lia].

(** C5: the operators [|], [&&] and [||] fold left: [a op b op c] is
    parsed as [(a op b) op c], for every three command literals. *)
Theorem command_ops_fold_left (a b c t : Token) (aa ba ca rest : list Token)
    (errs : list perror) :
  is_lit a aa -> is_lit b ba -> is_lit c ca -> stops rest ->
  (forall o1 o2 : Token, Type_ o1 = OR -> Type_ o2 = OR ->
     parseCommand (mkParser t (a :: aa ++ o1 :: b :: ba ++ o2 :: c :: ca ++ rest) errs)
     = (BinaryCommand (BinaryCommand (LiteralCommand a aa) o1 (LiteralCommand b ba))
                      o2 (LiteralCommand c ca),
        mkParser (List.last ca c) rest errs)) /\
  (forall o1 o2 : Token, Type_ o1 = LAND -> Type_ o2 = LAND ->
     parseCommand (mkParser t (a :: aa ++ o1 :: b :: ba ++ o2 :: c :: ca ++ rest) errs)
     = (LogicalCommand (LogicalCommand (LiteralCommand a aa) o1 (LiteralCommand b ba))
                       o2 (LiteralCommand c ca),
        mkParser (List.last ca c) rest errs)) /\
  (forall o1 o2 : Token, Type_ o1 = LOR -> Type_ o2 = LOR ->
     parseCommand (mkParser t (a :: aa ++ o1 :: b :: ba ++ o2 :: c :: ca ++ rest) errs)
     = (LogicalCommand (LogicalCommand (LiteralCommand a aa) o1 (LiteralCommand b ba))
                       o2 (LiteralCommand c ca),
        mkParser (List.last ca c) rest errs)).
Proof.
  intros Ha Hb Hc Hr. destruct (stops_kinds rest Hr) as (Rs & Ro & Ra & Rl).
  split; [|split]; intros o1 o2 H1 H2.
  - apply parseCommand_of_Not; [| rewrite pTok_mk; exact Ra | rewrite pTok_mk; exact Rl].
    rewrite parseCmdNot_no_bang by kind_neq.
    unfold parseCmdPipe. rewrite parseCmdLit_lit by kind_neq.
    rewrite foldLoop_more by (kind_neq || (simpl; lia)). rewrite next_mk.
    rewrite parseCmdLit_lit by kind_neq. cbv iota beta.
    rewrite foldLoop_more by (kind_neq || (simpl; rewrite length_app; simpl; lia)).
    rewrite next_mk. rewrite parseCmdLit_lit by kind_neq. cbv iota beta.
    rewrite foldLoop_stop by kind_neq. reflexivity.
  - apply parseCommand_of_And; [| rewrite pTok_mk; exact Rl].
    unfold parseCmdAnd. rewrite parseCmdNot_lit by kind_neq.
    rewrite foldLoop_more by (kind_neq || (simpl; lia)). rewrite next_mk.
    rewrite parseCmdNot_lit by kind_neq. cbv iota beta.
    rewrite foldLoop_more by (kind_neq || (simpl; rewrite length_app; simpl; lia)).
    rewrite next_mk. rewrite parseCmdNot_lit by kind_neq. cbv iota beta.
    rewrite foldLoop_stop by kind_neq. reflexivity.
  - unfold parseCommand, parseCmdLor. rewrite parseCmdAnd_lit by kind_neq.
    rewrite foldLoop_more by (kind_neq || (simpl; lia)). rewrite next_mk.
    rewrite parseCmdAnd_lit by kind_neq. cbv iota beta.
    rewrite foldLoop_more by (kind_neq || (simpl; rewrite length_app; simpl; lia)).
    rewrite next_mk. rewrite parseCmdAnd_lit by kind_neq. cbv iota beta.
    rewrite foldLoop_stop by kind_neq. reflexivity.
Qed.

(** C6: [&&] binds tighter than [||]: [a || b && c] is parsed as
    [a || (b && c)], for every three command literals. *)
Theorem and_binds_tighter_than_or (a b c t o1 o2 : Token) (aa ba ca rest : list Token)
    (errs : list perror) :
  is_lit a aa -> is_lit b ba -> is_lit c ca -> stops rest ->
  Type_ o1 = LOR -> Type_ o2 = LAND ->
  parseCommand (mkParser t (a :: aa ++ o1 :: b :: ba ++ o2 :: c :: ca ++ rest) errs)
  = (LogicalCommand (LiteralCommand a aa) o1
       (LogicalCommand (LiteralCommand b ba) o2 (LiteralCommand c ca)),
     mkParser (List.last ca c) rest errs).
Proof.
  intros Ha Hb Hc Hr H1 H2. destruct (stops_kinds rest Hr) as (Rs & Ro & Ra & Rl).
  assert (HB : parseCmdAnd (mkParser o1 (b :: ba ++ o2 :: c :: ca ++ rest) errs)
               = (LogicalCommand (LiteralCommand b ba) o2 (LiteralCommand c ca),
                  mkParser (List.last ca c) rest errs)).
  { unfold parseCmdAnd. rewrite parseCmdNot_lit by kind_neq.
    rewrite foldLoop_more by (kind_neq || (simpl; lia)). rewrite next_mk.
    rewrite parseCmdNot_lit by kind_neq. cbv iota beta.
    rewrite foldLoop_stop by kind_neq. reflexivity. }
  unfold parseCommand, parseCmdLor. rewrite parseCmdAnd_lit by kind_neq.
  rewrite foldLoop_more by (kind_neq || (simpl; lia)). rewrite next_mk, HB.
  cbv iota beta. rewrite foldLoop_stop by kind_neq. reflexivity.
Qed.

(** C7: [!] negates a whole pipe: [! a | b] is parsed as [!(a | b)],
    never as a pipe whose left side is [! a]. *)
Theorem negation_wraps_pipe (n a b t o : Token) (aa ba rest : list Token)
    (errs : list perror) :
  Type_ n = NOT -> is_lit a aa -> is_lit b ba -> Type_ o = OR -> stops rest ->
  parseCommand (mkParser t (n :: a :: aa ++ o :: b :: ba ++ rest) errs)
  = (UnaryCommand n (BinaryCommand (LiteralCommand a aa) o (LiteralCommand b ba)),
     mkParser (List.last ba b) rest errs) /\
  (forall x y z, fst (parseCommand (mkParser t (n :: a :: aa ++ o :: b :: ba ++ rest) errs))
                 <> BinaryCommand x y z).
Proof.
  intros Hn Ha Hb Ho Hr. destruct (stops_kinds rest Hr) as (Rs & Ro & Ra & Rl).
  assert (E : parseCommand (mkParser t (n :: a :: aa ++ o :: b :: ba ++ rest) errs)
              = (UnaryCommand n (BinaryCommand (LiteralCommand a aa) o (LiteralCommand b ba)),
                 mkParser (List.last ba b) rest errs)).
  { apply parseCommand_of_Not; [| rewrite pTok_mk; exact Ra | rewrite pTok_mk; exact Rl].
    unfold parseCmdNot, match_. rewrite pTok_mk. simpl headKind. rewrite Hn, Z.eqb_refl.
    rewrite next_mk. cbv iota beta. unfold current. cbn [tok].
    unfold parseCmdPipe. rewrite parseCmdLit_lit by kind_neq.
    rewrite foldLoop_more by (kind_neq || (simpl; lia)). rewrite next_mk.
    rewrite parseCmdLit_lit by kind_neq. cbv iota beta.
    rewrite foldLoop_stop by kind_neq. reflexivity. }
  split; [exact E|]. intros x y z. rewrite E. discriminate.
Qed.

(** Concrete tokens for the instances below. *)
Definition tk (k : Z) (s : string) : Token := mkToken k s {| Line := 1; Col := 1 |}.

Ltac concrete_hyps :=
  repeat split; try reflexivity; try (repeat constructor);
  unfold stops; simpl; intros H; repeat destruct H as [H|H]; try discriminate; exact H.

Lemma command_ops_fold_left_witness :
  (is_lit (tk STRING "a") [] /\ is_lit (tk STRING "b") [tk STRING "x"] /\
   is_lit (tk STRING "c") [] /\ stops [tk SEMICOLON ";"; tk EOF ""]) /\
  parseCommand (mkParser zeroToken
     [tk STRING "a"; tk OR "|"; tk STRING "b"; tk STRING "x"; tk OR "|"; tk STRING "c";
      tk SEMICOLON ";"; tk EOF ""] [])
  = (BinaryCommand (BinaryCommand (LiteralCommand (tk STRING "a") []) (tk OR "|")
                                  (LiteralCommand (tk STRING "b") [tk STRING "x"]))
                   (tk OR "|") (LiteralCommand (tk STRING "c") []),
     mkParser (tk STRING "c") [tk SEMICOLON ";"; tk EOF ""] []).
Proof.
  split; [concrete_hyps|].
  apply (proj1 (command_ops_fold_left (tk STRING "a") (tk STRING "b") (tk STRING "c")
           zeroToken [] [tk STRING "x"] [] [tk SEMICOLON ";"; tk EOF ""] []
           ltac:(concrete_hyps) ltac:(concrete_hyps) ltac:(concrete_hyps) ltac:(concrete_hyps))
           (tk OR "|") (tk OR "|") eq_refl eq_refl).
Defined.

Lemma and_binds_tighter_than_or_witness :
  (is_lit (tk STRING "a") [] /\ is_lit (tk STRING "b") [] /\
   is_lit (tk STRING "c") [] /\ stops [tk EOF ""]) /\
  parseCommand (mkParser zeroToken
     [tk STRING "a"; tk LOR "||"; tk STRING "b"; tk LAND "&&"; tk STRING "c"; tk EOF ""] [])
  = (LogicalCommand (LiteralCommand (tk STRING "a") []) (tk LOR "||")
       (LogicalCommand (LiteralCommand (tk STRING "b") []) (tk LAND "&&")
                       (LiteralCommand (tk STRING "c") [])),
     mkParser (tk STRING "c") [tk EOF ""] []).
Proof.
  split; [concrete_hyps|].
  apply (and_binds_tighter_than_or (tk STRING "a") (tk STRING "b") (tk STRING "c")
           zeroToken (tk LOR "||") (tk LAND "&&") [] [] [] [tk EOF ""] []);
    concrete_hyps.
Defined.

Lemma negation_wraps_pipe_witness :
  (is_lit (tk STRING "a") [] /\ is_lit (tk STRING "b") [] /\ stops [tk SEMICOLON ";"]) /\
  parseCommand (mkParser zeroToken
     [tk NOT "!"; tk STRING "a"; tk OR "|"; tk STRING "b"; tk SEMICOLON ";"] [])
  = (UnaryCommand (tk NOT "!")
       (BinaryCommand (LiteralCommand (tk STRING "a") []) (tk OR "|")
                      (LiteralCommand (tk STRING "b") [])),
     mkParser (tk STRING "b") [tk SEMICOLON ";"] []).
Proof.
  split; [concrete_hyps|].
  apply (proj1 (negation_wraps_pipe (tk NOT "!") (tk STRING "a") (tk STRING "b")
           zeroToken (tk OR "|") [] [] [tk SEMICOLON ";"] []
           eq_refl ltac:(concrete_hyps) ltac:(concrete_hyps) eq_refl ltac:(concrete_hyps))).
Defined.

(** C3, counterexample: in [a |] followed by [;], the command-literal
    position after [|] holds no STRING token; an error is reported, yet a
    [LiteralCommand] is built whose [Cmd] is the [|] operator token. *)
Lemma parseCommand_empty_literal_builds_node :
  parseCommand (mkParser zeroToken [tk STRING "a"; tk OR "|"; tk SEMICOLON ";"; tk EOF ""] [])
  = (BinaryCommand (LiteralCommand (tk STRING "a") []) (tk OR "|")
                   (LiteralCommand (tk OR "|") []),
     mkParser (tk OR "|") [tk SEMICOLON ";"; tk EOF ""] [UnexpectedToke SEMICOLON]) /\
  Type_ (tk OR "|") <> STRING.
Proof. split; [reflexivity | discriminate]. Qed.

Lemma litArgs_stop (n : nat) (p : parser) :
  pTok p <> STRING -> litArgs n p = ([], p).
Proof.
  intros H. destruct n; [reflexivity|]. simpl. unfold match_.
  destruct (Z.eqb_spec (pTok p) STRING); [contradiction | reflexivity].
Qed.

Lemma litArgs_inv (n : nat) :
  forall p, Forall (fun u => Type_ u = STRING) (fst (litArgs n p)) /\
            errors (snd (litArgs n p)) = errors p.
Proof.
  induction n as [|n IH]; intros p; [split; [constructor | reflexivity]|].
  simpl. unfold match_. destruct (Z.eqb_spec (pTok p) STRING) as [E|_].
  - specialize (IH (next p)). destruct (litArgs n (next p)) as [args p2] eqn:Ea.
    simpl in *. destruct IH as [IH1 IH2]. split.
    + constructor; [|exact IH1]. unfold current, next, pTok in *.
      destruct (toks p); [discriminate | exact E].
    + rewrite IH2. unfold next. destruct (toks p); reflexivity.
  - split; [constructor | reflexivity].
Qed.

(** C3, as the code does it: when the next token is not a STRING,
    [parseCmdLit] reports one error, consumes nothing, and still returns
    [LiteralCommand{Cmd: p.current(), Args: []}], the previously consumed
    token standing as the command name; when it is a STRING, that token is
    the command name and every argument is a STRING, with no error. *)
Theorem parseCmdLit_missing_name_uses_current (p : parser) :
  (pTok p <> STRING ->
   parseCmdLit p = (LiteralCommand (current p) [], error (UnexpectedToke (pTok p)) p)) /\
  (pTok p = STRING ->
   exists t rest args q,
     toks p = t :: rest /\ Type_ t = STRING /\
     parseCmdLit p = (LiteralCommand t args, q) /\
     Forall (fun u => Type_ u = STRING) args /\ errors q = errors p).
Proof.
  split; intros H.
  - unfold parseCmdLit, match_.
    destruct (Z.eqb_spec (pTok p) STRING) as [E|_]; [contradiction|].
    rewrite litArgs_stop by exact H. reflexivity.
  - destruct (toks p) as [|t rest] eqn:Et.
    { unfold pTok in H. rewrite Et in H. discriminate. }
    assert (Ht : Type_ t = STRING) by (unfold pTok in H; rewrite Et in H; exact H).
    pose proof (litArgs_inv (length rest) (mkParser t rest (errors p))) as [I1 I2].
    destruct (litArgs (length rest) (mkParser t rest (errors p))) as [args q] eqn:Ea.
    exists t, rest, args, q. split; [reflexivity|]. split; [exact Ht|].
    split; [|split; [exact I1 | exact I2]].
    unfold parseCmdLit, match_. rewrite H, Z.eqb_refl.
    unfold next, current. rewrite Et. cbn [toks tok length]. rewrite Ea. reflexivity.
Qed.

(** The source ["a\nb;"]. *)
Definition two_lines : string := ("a" +:+ String.String (Ascii.ascii_of_nat 10) "b;")%string.

(** C4, failing input: the source ["a\nb;"] gives no statement and no
    error, where two statements and one error are expected: [lexBase]
    reads the word [a], which is not a keyword, backs up and hands over
    to [lexCmd], which returns nil, so the token stream is empty and
    [parseProgram] stops at once. *)
Theorem Parse_two_lines_no_statement (La Da : Z -> bool) :
  (exists l, Lexer.Lex La Da two_lines false = Some l /\ Lexer.Tokens l = []) /\
  (forall fuel : nat, Parse La Da (S fuel) two_lines = Some ([], newParser [])).
Proof.
  split.
  - vm_compute. eexists. split; reflexivity.
  - intros fuel. vm_compute. reflexivity.
Qed.

Lemma errors_terminator (q : parser) :
  errors (terminator q) =
  errors q ++ (if pTok q =? SEMICOLON then [] else [ExpectedToken (pTok q) SEMICOLON]).
Proof.
  unfold terminator, match_. destruct (pTok q =? SEMICOLON).
  - unfold next. rewrite app_nil_r. destruct (toks q); reflexivity.
  - reflexivity.
Qed.

(** A command or block statement is followed by the terminator check,
    which on a missing [;] adds exactly one error and still returns the
    statement node; so the token stream [a ! b ; EOF] gives two
    statements and one error. *)
Theorem statement_terminator_recovery :
  (forall (fuel : nat) (p : parser), pTok p = STRING \/ pTok p = NOT ->
     parseStatement (S fuel) p
     = Some (Some (fst (parseCmdStmt p)), terminator (snd (parseCmdStmt p)))) /\
  (forall (fuel : nat) (p q : parser) (b : Statement), pTok p = LBRACE ->
     blockLoop fuel [] (next p) = Some (b, q) ->
     parseStatement (S fuel) p = Some (Some b, terminator q)) /\
  (forall q : parser, errors (terminator q) =
     errors q ++ (if pTok q =? SEMICOLON then [] else [ExpectedToken (pTok q) SEMICOLON])) /\
  (exists prog q,
     parseProgram 10 (newParser [tk STRING "a"; tk NOT "!"; tk STRING "b";
                                 tk SEMICOLON ";"; tk EOF ""]) = Some (prog, q) /\
     length prog = 2%nat /\ errors q = [ExpectedToken NOT SEMICOLON]).
Proof.
  split; [|split; [|split]].
  - intros fuel p H. cbn [parseStatement].
    destruct H as [H|H]; rewrite H; cbn -[parseCmdStmt terminator];
      destruct (parseCmdStmt p); reflexivity.
  - intros fuel p q b H Hb. cbn [parseStatement]. rewrite H. cbn -[blockLoop terminator].
    rewrite Hb. reflexivity.
  - exact errors_terminator.
  - eexists; eexists; split; [reflexivity|]. split; reflexivity.
Qed.

(** The default case: a token that cannot start a statement is reported
    and skipped, one token. *)
Lemma parseStatement_default_skips_one (fuel : nat) (p : parser) :
  ~ In (pTok p) [LBRACE; LET; IF; FOR; STRING; NOT] ->
  parseStatement (S fuel) p = Some (None, next (error (IllegalAtLineStart (pTok p)) p)).
Proof.
  intros H. cbn [parseStatement].
  destruct (Z.eqb_spec (pTok p) LBRACE); [exfalso; apply H; rewrite e; cbn; auto 10|].
  destruct (Z.eqb_spec (pTok p) LET); [exfalso; apply H; rewrite e; cbn; auto 10|].
  destruct (Z.eqb_spec (pTok p) IF); [exfalso; apply H; rewrite e; cbn; auto 10|].
  destruct (Z.eqb_spec (pTok p) FOR); [exfalso; apply H; rewrite e; cbn; auto 10|].
  destruct (Z.eqb_spec (pTok p) STRING); [exfalso; apply H; rewrite e; cbn; auto 10|].
  destruct (Z.eqb_spec (pTok p) NOT); [exfalso; apply H; rewrite e; cbn; auto 10|].
  reflexivity.
Qed.

(** The [let], [if] and [for] cases consume nothing: the terminator check
    then sees the keyword again, reports it, and leaves the stream as it was. *)
Lemma parseStatement_keyword_stalls (fuel : nat) (p : parser) :
  In (pTok p) [LET; IF; FOR] ->
  parseStatement (S fuel) p = Some (None, error (ExpectedToken (pTok p) SEMICOLON) p).
Proof.
  intros H. cbn [parseStatement]. unfold terminator, match_.
  destruct H as [H|[H|[H|[]]]]; rewrite <- H; cbn -[blockLoop parseCmdStmt next error];
    rewrite <- H; cbn -[next error]; rewrite <- H; reflexivity.
Qed.

Lemma programLoop_keyword_diverges (fuel : nat) :
  forall (acc : Program) (p : parser),
  In (pTok p) [LET; IF; FOR] -> programLoop fuel acc p = None.
Proof.
  induction fuel as [|fuel IH]; intros acc p H; [reflexivity|].
  simpl programLoop.
  assert (Ha : atEnd p = false).
  { unfold atEnd. unfold pTok in H. destruct (toks p) as [|t r].
    - simpl in H. destruct H as [H|[H|[H|[]]]]; discriminate.
    - simpl in H. destruct H as [H|[H|[H|[]]]]; rewrite <- H; reflexivity. }
  rewrite Ha. destruct fuel as [|fuel]; [reflexivity|].
  rewrite parseStatement_keyword_stalls by exact H.
  apply IH. exact H.
Qed.

(** C1, failing input: a statement that starts with [let], [if] or [for]
    is never consumed, so [parseProgram] runs out of every fuel bound on
    any such stream, e.g. on the tokens of the source ["let"]. *)
Theorem parseProgram_keyword_start_diverges :
  (forall (fuel : nat) (p : parser),
     In (pTok p) [LET; IF; FOR] -> parseProgram fuel p = None) /\
  (forall (La Da : Z -> bool) (fuel : nat), Parse La Da fuel "let"%string = None).
Proof.
  split.
  - intros fuel p H. apply programLoop_keyword_diverges. exact H.
  - intros La Da fuel. unfold Parse.
    match goal with
    | |- context [Lexer.Lex ?a ?b ?s ?e] =>
        let X := eval vm_compute in (Lexer.Lex a b s e) in
        change (Lexer.Lex a b s e) with X
    end.
    cbv iota beta. apply programLoop_keyword_diverges. left. reflexivity.
Qed.

End ParserFacts.


(* ================================================================== *)
(** * Further properties of the token, lexer and parser code *)

Module TokenExtra.
Import Token Unicode TokenIdent.

(** A boolean property of the runes in [lo, lo + n) checked one by one. *)
Lemma forall_range (P : Z -> bool) (lo : Z) (n : nat) :
  forallb (fun k => P (lo + Z.of_nat k)) (seq 0 n) = true ->
  forall c, lo <= c < lo + Z.of_nat n -> P c = true.
Proof.
  intros H c Hc. rewrite forallb_forall in H.
  specialize (H (Z.to_nat (c - lo))). rewrite Z2Nat.id in H by lia.
  replace (lo + (c - lo)) with c in H by lia. apply H.
  apply in_seq. lia.
Qed.

Lemma token_from_spec (s : string) (l : list string) :
  forall i : Z,
  (In s l -> exists k : nat, token_from i l s = i + Z.of_nat k /\ l !! k = Some s /\
                             forall j : nat, (j < k)%nat -> l !! j <> Some s) /\
  (~ In s l -> token_from i l s = Illegal).
Proof.
  induction l as [|v l IH]; intros i; split; intros H.
  - destruct H.
  - reflexivity.
  - simpl. destruct (String.eqb_spec v s) as [->|Hne].
    + exists 0%nat. split; [lia|]. split; [reflexivity|]. intros j Hj. lia.
    + destruct H as [H|H]; [contradiction|].
      destruct (proj1 (IH (i + 1)) H) as (k & Hk & Hl & Hf).
      exists (S k). split; [rewrite Hk; lia|]. split; [exact Hl|].
      intros [|j] Hj; simpl.
      * intros E. injection E as E. contradiction.
      * apply Hf. lia.
  - simpl. destruct (String.eqb_spec v s) as [->|Hne].
    + exfalso. apply H. left. reflexivity.
    + apply (proj2 (IH (i + 1))). intros Hin. apply H. right. exact Hin.
Qed.

(** [token(s)] is the first kind whose table entry is [s], and [Illegal]
    when no entry is [s]. *)
Theorem token_first_index (s : string) :
  (In s tokens ->
     0 <= token s < Z.of_nat (length tokens) /\ tokens_at (token s) = s /\
     forall t, 0 <= t < token s -> tokens_at t <> s) /\
  (~ In s tokens -> token s = Illegal).
Proof.
  split; intros H.
  - destruct (proj1 (token_from_spec s tokens 0) H) as (k & Hk & Hl & Hf).
    unfold token. rewrite Hk, Z.add_0_l.
    assert (Hlt : (k < length tokens)%nat) by (apply lookup_lt_is_Some; rewrite Hl; eauto).
    split; [lia|]. split.
    + unfold tokens_at. rewrite Nat2Z.id, Hl. reflexivity.
    + intros t Ht. unfold tokens_at.
      assert (Hj : (Z.to_nat t < k)%nat) by lia.
      destruct (tokens !! Z.to_nat t) as [v|] eqn:Ev.
      * simpl. intros ->. exact (Hf _ Hj Ev).
      * apply lookup_ge_None in Ev. lia.
  - exact (proj2 (token_from_spec s tokens 0) H).
Qed.

Lemma token_operator_table :
  forallb (fun k => let t := 9 + Z.of_nat k in
                    negb (String.eqb (tokens_at t) "") && (token (tokens_at t) =? t))
          (seq 0 44) = true.
Proof. vm_compute. reflexivity. Qed.

(** [IsOperator(s)] holds exactly for the spellings of the operator kinds. *)
Theorem IsOperator_spellings (s : string) :
  IsOperator s = true <-> exists t, IsOperator_ t = true /\ tokens_at t = s.
Proof.
  unfold IsOperator. split.
  - intros H. exists (token s). split; [exact H|].
    destruct (in_dec String.string_dec s tokens) as [Hin|Hin].
    + apply (proj1 (token_first_index s) Hin).
    + rewrite (proj2 (token_first_index s) Hin) in H. discriminate H.
  - intros (t & Ht & <-). unfold IsOperator_, operatorBeg, operatorEnd in Ht.
    apply andb_true_iff in Ht as [H1 H2]. apply Z.ltb_lt in H1, H2.
    pose proof (forall_range (fun t => negb (String.eqb (tokens_at t) "") && (token (tokens_at t) =? t))
                  9 44 token_operator_table t ltac:(lia)) as Hc.
    apply andb_true_iff in Hc as [_ Hc]. apply Z.eqb_eq in Hc. rewrite Hc.
    unfold IsOperator_, operatorBeg, operatorEnd. apply andb_true_iff; split; apply Z.ltb_lt; lia.
Qed.

(** [t.String()] is never empty: kinds outside the table, and the range
    sentinels whose slot holds the zero string, print as [token(<t>)]. *)
Theorem String_nonempty_fallback :
  (forall t : Z, String_ t <> ""%string) /\
  (forall t : Z, t < 0 \/ Z.of_nat (length tokens) <= t \/ tokens_at t = ""%string ->
     String_ t = ("token(" +:+ pretty t +:+ ")")%string).
Proof.
  split.
  - intros t. unfold String_.
    match goal with |- context [String.eqb ?x ""] =>
      destruct (String.eqb_spec x "") as [_|Hne]; [discriminate|exact Hne] end.
  - intros t Ht. unfold String_.
    destruct ((0 <=? t) && (t <? Z.of_nat (length tokens))) eqn:E.
    + apply andb_true_iff in E as [E1 E2]. apply Z.leb_le in E1. apply Z.ltb_lt in E2.
      destruct Ht as [Ht|[Ht|Ht]]; [lia|lia|]. rewrite Ht. reflexivity.
    + reflexivity.
Qed.

(** [InsertSemi] holds exactly for the literal kinds, the closing
    brackets and [break], [continue], [return]. *)
Theorem InsertSemi_kinds (t : Z) :
  InsertSemi t = true <->
  In t [Identifier; Number; String; RightParen; RightBrack; RightBrace; Break; Continue; Return].
Proof.
  unfold InsertSemi, IsLiteral.
  destruct ((literalBeg <? t) && (t <? literalEnd)) eqn:E.
  - apply andb_true_iff in E as [E1 E2]. apply Z.ltb_lt in E1, E2.
    unfold literalBeg, literalEnd in *. split; [intros _|reflexivity].
    assert (Ht : t = 4 \/ t = 5 \/ t = 6) by lia.
    destruct Ht as [-> | [-> | ->]]; simpl; auto.
  - split.
    + intros H. repeat (apply orb_true_iff in H as [H|H]); apply Z.eqb_eq in H; subst;
        simpl; auto 10.
    + intros H. simpl in H.
      destruct H as [<-|[<-|[<-|[<-|[<-|[<-|[<-|[<-|[<-|[]]]]]]]]]];
        vm_compute in E |- *; first [discriminate E | reflexivity].
Qed.


Lemma fill_keywords_Some (n : nat) :
  forall (i : Z) (m : gmap string Z) (s : string) (v : Z),
  fill_keywords n i m !! s = Some v ->
  m !! s = Some v \/ (i <= v < i + Z.of_nat n /\ tokens_at v = s).
Proof.
  induction n as [|n IH]; intros i m s v H; simpl in H; [left; exact H|].
  destruct (IH _ _ _ _ H) as [H1|H1].
  - apply lookup_insert_Some in H1 as [[E1 E2]|[_ E]].
    + right. subst. split; [lia | reflexivity].
    + left. exact E.
  - right. destruct H1 as [H1 H2]. split; [lia | exact H2].
Qed.

Lemma keywords_Some (s : string) (v : Z) :
  keywords !! s = Some v -> IsKeyword_ v = true /\ tokens_at v = s.
Proof.
  intros H. apply fill_keywords_Some in H as [H|[H1 H2]].
  - rewrite lookup_empty in H. discriminate H.
  - split; [|exact H2]. unfold IsKeyword_, keywordBeg, keywordEnd in *.
    simpl in H1. apply andb_true_iff. split; apply Z.ltb_lt; lia.
Qed.

(** [IsKeyword(name)] holds exactly when [Lookup(name)] is not
    [Identifier], and exactly for the spellings of the keyword kinds. *)
Theorem IsKeyword_Lookup (name : string) :
  (IsKeyword name = true <-> Lookup name <> Identifier) /\
  (IsKeyword name = true <-> exists t, IsKeyword_ t = true /\ tokens_at t = name).
Proof.
  unfold IsKeyword, Lookup.
  destruct (keywords !! name) as [v|] eqn:E.
  - pose proof (keywords_Some _ _ E) as [Hk Ht].
    rewrite bool_decide_eq_true_2 by (eexists; reflexivity).
    split; split; intros _; [|reflexivity| |reflexivity].
    + unfold IsKeyword_, keywordBeg, keywordEnd, Identifier in *.
      apply andb_true_iff in Hk as [H1 _]. apply Z.ltb_lt in H1. lia.
    + exists v. split; assumption.
  - rewrite bool_decide_eq_false_2 by (intros [x Hx]; discriminate Hx).
    split; split; intros H; try discriminate H.
    + exfalso. apply H. reflexivity.
    + destruct H as (t & Hk & <-).
      unfold IsKeyword_, keywordBeg, keywordEnd in Hk.
      apply andb_true_iff in Hk as [H1 H2]. apply Z.ltb_lt in H1, H2.
      pose proof TokenFacts.Lookup_keyword_table as Hc.
      assert (Hl : forall c, 55 <= c < 55 + Z.of_nat 9 -> (Lookup (tokens_at c) =? c) = true).
      { apply forall_range. rewrite <- Hc. reflexivity. }
      specialize (Hl t ltac:(lia)). apply Z.eqb_eq in Hl.
      unfold Lookup in Hl. rewrite E in Hl. unfold Identifier in Hl. lia.
Qed.


Lemma string_bytes_nonneg (s : string) : Forall (fun b => 0 <= b) (string_bytes s).
Proof.
  unfold string_bytes. apply Forall_forall. intros b Hb.
  apply list_elem_of_In, in_map_iff in Hb as (a & <- & _). unfold chr. lia.
Qed.

Lemma string_bytes_nil (s : string) : string_bytes s = [] <-> s = ""%string.
Proof.
  unfold string_bytes. split.
  - intros H. apply map_eq_nil in H.
    rewrite <- (String.string_of_list_ascii_of_string s), H. reflexivity.
  - intros ->. reflexivity.
Qed.

Lemma length_string_bytes (s : string) : length (string_bytes s) = String.length s.
Proof.
  unfold string_bytes. rewrite length_map. induction s as [|a s IH]; simpl; congruence.
Qed.

Lemma IsLetter_ascii (La : Z -> bool) (c : Z) :
  0 <= c < 128 -> IsLetter La c = (65 <=? c) && (c <=? 90) || (97 <=? c) && (c <=? 122).
Proof.
  intros Hc.
  assert (H : forall d, 0 <= d < 0 + Z.of_nat 128 ->
            Bool.eqb (IsLetter La d) ((65 <=? d) && (d <=? 90) || (97 <=? d) && (d <=? 122)) = true).
  { apply forall_range. vm_compute. reflexivity. }
  apply Bool.eqb_prop, H. lia.
Qed.

Lemma IsDigit_ascii (Da : Z -> bool) (c : Z) :
  0 <= c < 128 -> IsDigit Da c = (48 <=? c) && (c <=? 57).
Proof.
  intros Hc. unfold IsDigit. destruct (Z.leb_spec c MaxLatin1); [reflexivity|].
  unfold MaxLatin1 in *. lia.
Qed.

Lemma Decode_ascii (b : Z) (rest : list Z) :
  0 <= b < 128 -> DecodeRuneInString (b :: rest) = (b, 1).
Proof.
  intros Hb. unfold DecodeRuneInString. destruct (Z.ltb_spec b RuneSelf); [reflexivity|].
  unfold RuneSelf in *. lia.
Qed.

Definition ascii_letter (c : Z) : Prop := 65 <= c <= 90 \/ 97 <= c <= 122.
Definition ascii_digit (c : Z) : Prop := 48 <= c <= 57.

(** An ASCII rune accepted by the loop of [IsIdentifier]; [first] tells
    whether it is at byte offset 0. *)
Definition identByte (first : bool) (c : Z) : bool :=
  (65 <=? c) && (c <=? 90) || (97 <=? c) && (c <=? 122) || (c =? 95)
  || negb first && ((48 <=? c) && (c <=? 57)).

Lemma identByte_spec (first : bool) (c : Z) :
  identByte first c = true <->
  ascii_letter c \/ c = 95 \/ (first = false /\ ascii_digit c).
Proof.
  unfold identByte, ascii_letter, ascii_digit.
  rewrite !Bool.orb_true_iff, !Bool.andb_true_iff, !Z.leb_le, Z.eqb_eq, Bool.negb_true_iff.
  tauto.
Qed.

Lemma identRunes_ascii (La Da : Z -> bool) (bs : list Z) :
  forall (n : nat) (i : Z),
  Forall (fun b => 0 <= b < 128) bs -> (length bs <= n)%nat -> 0 <= i ->
  identRunes La Da n i bs =
  match bs with
  | [] => true
  | b :: bs' => identByte (i =? 0) b && forallb (identByte false) bs'
  end.
Proof.
  induction bs as [|b bs IH]; intros n i Hf Hn Hi.
  - destruct n; reflexivity.
  - inversion Hf as [|? ? Hb Hf']; subst.
    destruct n as [|n]; [simpl in Hn; lia|].
    cbn [identRunes]. rewrite Decode_ascii by exact Hb.
    change (drop (Z.to_nat 1) (b :: bs)) with bs.
    rewrite IsLetter_ascii, IsDigit_ascii by exact Hb.
    rewrite (IH n (i + 1) Hf' ltac:(simpl in Hn; lia) ltac:(lia)).
    replace (i + 1 =? 0) with false by (symmetry; apply Z.eqb_neq; lia).
    assert (Hrest : match bs with
                    | [] => true
                    | b0 :: bs' => identByte false b0 && forallb (identByte false) bs'
                    end = forallb (identByte false) bs) by (destruct bs; reflexivity).
    rewrite Hrest. change (chr "_") with 95. unfold identByte.
    destruct ((65 <=? b) && (b <=? 90) || (97 <=? b) && (b <=? 122));
    destruct (i =? 0); destruct ((48 <=? b) && (b <=? 57)); destruct (b =? 95);
    reflexivity.
Qed.

(** On an ASCII name, [IsIdentifier] holds exactly when the name is
    non-empty and not a keyword, its first byte is an ASCII letter or
    [_], and every later byte an ASCII letter, digit or [_]. *)
Theorem IsIdentifier_ascii (La Da : Z -> bool) (name : string) :
  Forall (fun b => b < RuneSelf) (string_bytes name) ->
  IsIdentifier La Da name = true <->
  exists b bs, string_bytes name = b :: bs /\
    (ascii_letter b \/ b = 95) /\
    Forall (fun c => ascii_letter c \/ ascii_digit c \/ c = 95) bs /\
    IsKeyword name = false.
Proof.
  intros Ha.
  assert (Hf : Forall (fun b => 0 <= b < 128) (string_bytes name)).
  { pose proof (string_bytes_nonneg name) as Hn. rewrite Forall_forall in Ha, Hn |- *.
    intros x Hx. specialize (Ha x Hx). specialize (Hn x Hx). unfold RuneSelf in Ha. lia. }
  pose proof (identRunes_ascii La Da (string_bytes name) (String.length name) 0 Hf
                ltac:(rewrite length_string_bytes; lia) ltac:(lia)) as Hr.
  unfold IsIdentifier. rewrite Hr. cbn [Z.eqb].
  destruct (string_bytes name) as [|b bs] eqn:Eb.
  - split; [|intros (b & bs & E & _); discriminate E].
    apply string_bytes_nil in Eb. subst name. intros H. discriminate H.
  - assert (Hne : String.eqb name "" = false).
    { apply String.eqb_neq. intros ->. discriminate Eb. }
    rewrite Hne. cbn [negb]. rewrite Bool.andb_true_r, !Bool.andb_true_iff, Bool.negb_true_iff.
    rewrite identByte_spec, forallb_forall. split.
    + intros [[Hb Hbs] Hk]. exists b, bs. split; [reflexivity|].
      split; [destruct Hb as [?|[?|[? _]]]; [tauto|tauto|discriminate]|].
      split; [|exact Hk].
      apply Forall_forall. intros c Hc. apply list_elem_of_In in Hc.
      apply Hbs, identByte_spec in Hc. tauto.
    + intros (b' & bs' & E & Hb & Hbs & Hk). injection E as <- <-.
      split; [split|exact Hk]; [tauto|].
      intros c Hc. rewrite Forall_forall in Hbs. apply list_elem_of_In in Hc.
      apply identByte_spec. specialize (Hbs c Hc). tauto.
Qed.

(** Unicode tables with no entry above Latin-1, for concrete instances. *)
Definition noneAbove (_ : Z) : bool := false.

Lemma IsIdentifier_ascii_witness :
  Forall (fun b => b < RuneSelf) (string_bytes "a1_") /\
  exists b bs, string_bytes "a1_" = b :: bs /\ (ascii_letter b \/ b = 95) /\
    Forall (fun c => ascii_letter c \/ ascii_digit c \/ c = 95) bs /\ IsKeyword "a1_" = false.
Proof.
  assert (H : Forall (fun b => b < RuneSelf) (string_bytes "a1_"))
    by (vm_compute; repeat constructor).
  split; [exact H|].
  apply (IsIdentifier_ascii noneAbove noneAbove "a1_" H). vm_compute. reflexivity.
Defined.

End TokenExtra.

Module Utf8Extra.
Import Unicode.

Lemma lor_add (a b k : Z) : 0 <= k -> 0 <= b < 2 ^ k -> a mod 2 ^ k = 0 -> Z.lor a b = a + b.
Proof.
  intros Hk Hb Ha.
  assert (H0 : Z.land a b = 0).
  { apply Z.bits_inj'. intros i Hi. rewrite Z.land_spec, Z.bits_0.
    destruct (Z.lt_ge_cases i k) as [Hl|Hl].
    - rewrite <- (Z.mod_pow2_bits_low a k i Hl), Ha, Z.bits_0. reflexivity.
    - assert (Hd : b / 2 ^ i = 0).
      { apply Z.div_small. split; [lia|].
        apply (Z.lt_le_trans _ (2 ^ k)); [lia|]. apply Z.pow_le_mono_r; lia. }
      replace (Z.testbit b i) with (Z.testbit (b / 2 ^ i) 0)
        by (rewrite Z.div_pow2_bits by lia; f_equal; lia).
      rewrite Hd. apply andb_false_r. }
  rewrite <- Z.lxor_lor by exact H0. symmetry. apply Z.add_nocarry_lxor, H0.
Qed.

Lemma land_ones' (x : Z) (k : Z) (m : Z) : 0 <= k -> m = 2 ^ k - 1 -> Z.land x m = x mod 2 ^ k.
Proof. intros Hk ->. rewrite <- Z.land_ones by exact Hk. rewrite Z.ones_equiv. reflexivity. Qed.

Lemma land63 (x : Z) : Z.land x 63 = x mod 64.
Proof. exact (land_ones' x 6 63 ltac:(lia) eq_refl). Qed.
Lemma land31 (x : Z) : Z.land x 31 = x mod 32.
Proof. exact (land_ones' x 5 31 ltac:(lia) eq_refl). Qed.
Lemma land15 (x : Z) : Z.land x 15 = x mod 16.
Proof. exact (land_ones' x 4 15 ltac:(lia) eq_refl). Qed.
Lemma land7 (x : Z) : Z.land x 7 = x mod 8.
Proof. exact (land_ones' x 3 7 ltac:(lia) eq_refl). Qed.

Lemma pow6 : 2 ^ 6 = 64. Proof. reflexivity. Qed.
Lemma pow12 : 2 ^ 12 = 4096. Proof. reflexivity. Qed.
Lemma pow18 : 2 ^ 18 = 262144. Proof. reflexivity. Qed.
Lemma pow3 : 2 ^ 3 = 8. Proof. reflexivity. Qed.
Lemma pow4 : 2 ^ 4 = 16. Proof. reflexivity. Qed.

Ltac arith :=
  repeat first
    [ rewrite land63 | rewrite land31 | rewrite land15 | rewrite land7
    | rewrite Z.shiftr_div_pow2 by lia | rewrite Z.shiftl_mul_pow2 by lia ];
  rewrite ?pow3, ?pow4, ?pow6, ?pow12, ?pow18.

Ltac zlia := Z.div_mod_to_equations; lia.

(** The clamping of [encode_rune] keeps every valid rune. *)
Lemma encode_valid (r : Z) :
  0 <= r <= MaxRune -> ~ (55296 <= r <= 57343) ->
  ((r <? 0) || (MaxRune <? r) || (55296 <=? r) && (r <=? 57343)) = false.
Proof.
  unfold MaxRune. intros H1 H2.
  destruct (Z.ltb_spec r 0), (Z.ltb_spec 1114111 r), (Z.leb_spec 55296 r), (Z.leb_spec r 57343);
    cbn; lia.
Qed.

Lemma encode_1 (r : Z) : 0 <= r < 128 -> encode_rune r = [r].
Proof.
  intros H. unfold encode_rune. rewrite encode_valid by (unfold MaxRune; lia).
  destruct (Z.ltb_spec r 128); [reflexivity | lia].
Qed.

Lemma encode_2 (r : Z) : 128 <= r < 2048 -> encode_rune r = [192 + r / 64; 128 + r mod 64].
Proof.
  intros H. unfold encode_rune. rewrite encode_valid by (unfold MaxRune; lia).
  destruct (Z.ltb_spec r 128); [lia|]. destruct (Z.ltb_spec r 2048); [|lia].
  arith. rewrite (lor_add 192 _ 6), (lor_add 128 _ 6); rewrite ?pow6; try zlia. reflexivity.
Qed.

Lemma encode_3 (r : Z) : 2048 <= r < 65536 -> ~ (55296 <= r <= 57343) ->
  encode_rune r = [224 + r / 4096; 128 + (r / 64) mod 64; 128 + r mod 64].
Proof.
  intros H Hs. unfold encode_rune. rewrite encode_valid by (unfold MaxRune; lia).
  destruct (Z.ltb_spec r 128); [lia|]. destruct (Z.ltb_spec r 2048); [lia|].
  destruct (Z.ltb_spec r 65536); [|lia].
  arith. rewrite (lor_add 224 _ 4), !(lor_add 128 _ 6); rewrite ?pow4, ?pow6; try zlia. reflexivity.
Qed.

Lemma encode_4 (r : Z) : 65536 <= r <= MaxRune ->
  encode_rune r = [240 + r / 262144; 128 + (r / 4096) mod 64; 128 + (r / 64) mod 64; 128 + r mod 64].
Proof.
  intros H. unfold encode_rune. rewrite encode_valid by (unfold MaxRune in *; lia).
  unfold MaxRune in H.
  destruct (Z.ltb_spec r 128); [lia|]. destruct (Z.ltb_spec r 2048); [lia|].
  destruct (Z.ltb_spec r 65536); [lia|].
  arith. rewrite (lor_add 240 _ 3), !(lor_add 128 _ 6); rewrite ?pow3, ?pow6; try zlia. reflexivity.
Qed.

Ltac zcase :=
  match goal with
  | |- context [Z.ltb ?a ?b] => destruct (Z.ltb_spec a b)
  | |- context [Z.leb ?a ?b] => destruct (Z.leb_spec a b)
  | |- context [Z.eqb ?a ?b] => destruct (Z.eqb_spec a b)
  end; cbn [andb orb negb Nat.leb Nat.ltb length app]; try (exfalso; lia).

Lemma decode_2 (q m : Z) (rest : list Z) :
  2 <= q < 32 -> 0 <= m < 64 ->
  DecodeRuneInString ([192 + q; 128 + m] ++ rest) = (64 * q + m, 2).
Proof.
  intros Hq Hm. unfold DecodeRuneInString, first_info, is_cont, RuneSelf.
  cbn [app length Nat.ltb Nat.leb]. repeat zcase.
  arith. rewrite (lor_add _ _ 6); rewrite ?pow6; try zlia. f_equal. zlia.
Qed.

Lemma decode_3 (q1 q2 m : Z) (rest : list Z) :
  0 <= q1 < 16 -> 0 <= q2 < 64 -> 0 <= m < 64 ->
  (q1 = 0 -> 32 <= q2) -> (q1 = 13 -> q2 < 32) ->
  DecodeRuneInString ([224 + q1; 128 + q2; 128 + m] ++ rest) = (4096 * q1 + 64 * q2 + m, 3).
Proof.
  intros H1 H2 Hm E0 E13. unfold DecodeRuneInString, first_info, is_cont, RuneSelf.
  cbn [app length Nat.ltb Nat.leb]. repeat zcase.
  all: arith; rewrite (lor_add _ (_ * 64) 12), (lor_add _ _ 6); rewrite ?pow6, ?pow12;
    try zlia; f_equal; zlia.
Qed.

Lemma decode_4 (q0 q1 q2 m : Z) (rest : list Z) :
  0 <= q0 <= 4 -> 0 <= q1 < 64 -> 0 <= q2 < 64 -> 0 <= m < 64 ->
  (q0 = 0 -> 16 <= q1) -> (q0 = 4 -> q1 < 16) ->
  DecodeRuneInString ([240 + q0; 128 + q1; 128 + q2; 128 + m] ++ rest)
  = (262144 * q0 + 4096 * q1 + 64 * q2 + m, 4).
Proof.
  intros H0 H1 H2 Hm E0 E4. unfold DecodeRuneInString, first_info, is_cont, RuneSelf.
  cbn [app length Nat.ltb Nat.leb]. repeat zcase.
  all: arith; rewrite (lor_add _ (_ * 4096) 18), (lor_add _ (_ * 64) 12), (lor_add _ _ 6);
    rewrite ?pow6, ?pow12, ?pow18; try zlia; f_equal; zlia.
Qed.

(** [utf8.DecodeRuneInString] reads back the rune that [string(r)]
    encodes, whatever bytes follow it. *)
Lemma decode_encode (r : Z) (rest : list Z) :
  0 <= r <= MaxRune -> ~ (55296 <= r <= 57343) ->
  DecodeRuneInString (encode_rune r ++ rest) = (r, Z.of_nat (length (encode_rune r))).
Proof.
  intros H Hs. unfold MaxRune in H.
  destruct (Z.lt_ge_cases r 128).
  { rewrite encode_1 by lia. cbn. unfold RuneSelf. destruct (Z.ltb_spec r 128); [reflexivity | lia]. }
  destruct (Z.lt_ge_cases r 2048).
  { rewrite encode_2 by lia. rewrite decode_2 by zlia. f_equal. zlia. }
  destruct (Z.lt_ge_cases r 65536).
  { rewrite encode_3 by lia. rewrite decode_3 by zlia. f_equal. zlia. }
  rewrite encode_4 by (unfold MaxRune; lia). rewrite decode_4 by zlia. f_equal. zlia.
Qed.

Lemma encode_length (r : Z) :
  128 <= r <= MaxRune -> ~ (55296 <= r <= 57343) -> (2 <= length (encode_rune r))%nat.
Proof.
  intros H Hs. unfold MaxRune in H.
  destruct (Z.lt_ge_cases r 2048); [rewrite encode_2 by lia; cbn; lia|].
  destruct (Z.lt_ge_cases r 65536); [rewrite encode_3 by lia; cbn; lia|].
  rewrite encode_4 by (unfold MaxRune; lia). cbn. lia.
Qed.

End Utf8Extra.

Module LexerExtra.
Import Token Unicode Lexer.

Lemma substring_length (s : string) :
  forall n m : nat, String.length (String.substring n m s) = Nat.min m (String.length s - n).
Proof.
  induction s as [|a s IH]; intros [|n] [|m]; simpl; try reflexivity.
  - rewrite IH. f_equal. lia.
  - rewrite IH. reflexivity.
  - rewrite IH. reflexivity.
Qed.

Lemma length_list_ascii (s : string) : length (String.list_ascii_of_string s) = String.length s.
Proof. induction s as [|a s IH]; simpl; congruence. Qed.

Lemma bytes_from_length (s : string) (i : Z) :
  length (bytes_from s i) = (String.length s - Z.to_nat i)%nat.
Proof.
  unfold bytes_from. rewrite length_map, length_list_ascii, substring_length. lia.
Qed.

Lemma Decode_width (b : Z) (rest : list Z) (r w : Z) :
  DecodeRuneInString (b :: rest) = (r, w) ->
  1 <= w <= 4 /\ w <= Z.of_nat (length (b :: rest)).
Proof.
  unfold DecodeRuneInString. intros H.
  repeat (case_match; simplify_eq); simpl length; try lia.
Qed.

(** [consume] never reads past the end of the source: at the end it sets
    [ch] to [eof] and [wd] to 0 and moves nothing; otherwise it moves the
    read offset forward by the rune's width [wd], between 1 and 4 bytes,
    and stays within the source. *)
Theorem consume_bounds (l : lexer) :
  0 <= rdOffset l ->
  (atEnd l = true ->
     ch (consume l) = eof /\ wd (consume l) = 0 /\ rdOffset (consume l) = rdOffset l /\
     pos (consume l) = pos l /\ ErrCount (consume l) = ErrCount l) /\
  (atEnd l = false ->
     rdOffset (consume l) = rdOffset l + wd (consume l) /\ 1 <= wd (consume l) <= 4 /\
     rdOffset (consume l) <= src_len l).
Proof.
  intros H0. split; intros Hend; unfold consume; rewrite Hend.
  - repeat split; reflexivity.
  - unfold atEnd, src_len in Hend. apply Z.leb_gt in Hend.
    unfold src_len. destruct (_ =? 0); [cbn; lia|]. destruct (_ <? RuneSelf); [cbn; lia|].
    destruct (bytes_from (src l) (rdOffset l)) as [|b rest] eqn:Eb.
    { pose proof (bytes_from_length (src l) (rdOffset l)) as Hl. rewrite Eb in Hl.
      simpl in Hl. lia. }
    destruct (DecodeRuneInString (b :: rest)) as [r w] eqn:D.
    apply Decode_width in D as [Hw Hw'].
    pose proof (bytes_from_length (src l) (rdOffset l)) as Hl. rewrite Eb in Hl.
    rewrite Hl in Hw'.
    assert (Hmax : w <= src_len l - rdOffset l) by (unfold src_len; lia).
    unfold src_len in Hmax.
    destruct (_ && _); [cbn; lia|]. destruct (_ && _); cbn; lia.
Qed.


(** The read offset stays within the source. *)
Definition inRange (l : lexer) : Prop := 0 <= rdOffset l <= src_len l.

(** [l'] is a later state of the same source: same [src], read offset in
    range and not moved back. *)
Definition grows (l l' : lexer) : Prop :=
  src l' = src l /\ inRange l' /\ rdOffset l <= rdOffset l'.

Lemma grows_refl (l : lexer) : inRange l -> grows l l.
Proof. intros H. split; [reflexivity|]. split; [exact H | lia]. Qed.

Lemma grows_trans (l1 l2 l3 : lexer) : grows l1 l2 -> grows l2 l3 -> grows l1 l3.
Proof.
  intros (E1 & I1 & H1) (E2 & I2 & H2). split; [congruence|]. split; [exact I2 | lia].
Qed.

Ltac fin := cbn; repeat split; try reflexivity; try lia;
            try (intros E'; discriminate E'); intros; lia.

Lemma consume_grows (l : lexer) :
  inRange l -> grows l (consume l) /\ (atEnd l = false -> rdOffset l < rdOffset (consume l)).
Proof.
  intros [H0 H1]. unfold grows, inRange.
  assert (Hs : src (consume l) = src l) by (unfold consume; repeat case_match; reflexivity).
  assert (Hlen : src_len (consume l) = src_len l) by (unfold src_len; rewrite Hs; reflexivity).
  rewrite Hlen. unfold src_len in *.
  destruct (atEnd l) eqn:Hend.
  - unfold consume. rewrite Hend. fin.
  - unfold consume. rewrite Hend. unfold atEnd, src_len in Hend. apply Z.leb_gt in Hend.
    destruct (_ =? 0); [fin|].
    destruct (_ <? RuneSelf); [fin|].
    destruct (bytes_from (src l) (rdOffset l)) as [|b rest] eqn:Eb.
    { pose proof (bytes_from_length (src l) (rdOffset l)) as Hl. rewrite Eb in Hl.
      simpl in Hl. lia. }
    destruct (DecodeRuneInString (b :: rest)) as [r w] eqn:D.
    apply Decode_width in D as [Hw Hw'].
    pose proof (bytes_from_length (src l) (rdOffset l)) as Hl. rewrite Eb in Hl.
    rewrite Hl in Hw'.
    destruct (_ && _); [fin|].
    destruct (_ && _); fin.
Qed.

Lemma consume_while_grows (p : Z -> bool) (n : nat) :
  forall l, inRange l -> grows l (consume_while p n l).
Proof.
  induction n as [|n IH]; intros l Hl; simpl; [apply grows_refl, Hl|].
  destruct (p (peek l)); [|apply grows_refl, Hl].
  destruct (consume_grows l Hl) as [G _]. eapply grows_trans; [exact G|].
  apply IH. apply G.
Qed.

Lemma ignore_grows (l l' : lexer) : grows l l' -> grows l (ignore l').
Proof. intros G. exact G. Qed.

Lemma emit_grows (t : Z) (l l' : lexer) : grows l l' -> grows l (emit t l').
Proof. intros G. exact G. Qed.

Lemma consumeSpace_grows (l : lexer) : inRange l -> grows l (consumeSpace l).
Proof. intros H. apply ignore_grows, consume_while_grows, H. Qed.

Lemma consumeWord_grows (l : lexer) : inRange l -> grows l (consumeWord l).
Proof. intros H. apply consume_while_grows, H. Qed.

Lemma consumeIdent_grows (La Da : Z -> bool) (l : lexer) : inRange l -> grows l (consumeIdent La Da l).
Proof. intros H. apply consume_while_grows, H. Qed.

Lemma consume_while_then_grows (p : Z -> bool) (c : Z) (l : lexer) :
  inRange l ->
  grows l (let l := consume_while p (src_fuel l) l in if peek l =? c then consume l else l).
Proof.
  intros H. cbn zeta. pose proof (consume_while_grows p (src_fuel l) l H) as G.
  destruct (_ =? c); [|exact G].
  eapply grows_trans; [exact G|]. apply consume_grows, G.
Qed.

Lemma consumeString_grows (l : lexer) : inRange l -> grows l (consumeString l).
Proof. apply consume_while_then_grows. Qed.

Lemma consumeComment_grows (l : lexer) : inRange l -> grows l (consumeComment l).
Proof. apply consume_while_then_grows. Qed.

Definition stmtState (s : option stateFunc) : Prop :=
  s = Some StStmt \/ s = Some StNum \/ s = Some StStmtOp.

Lemma lexStmt_grows (La Da : Z -> bool) (l l' : lexer) (s : option stateFunc) :
  inRange l -> lexStmt La Da l = (l', s) ->
  grows l l' /\ (s = None \/ stmtState s) /\
  (atEnd l = false -> rdOffset l < rdOffset l').
Proof.
  intros H E. destruct (consume_grows l H) as [G P].
  assert (Hc : inRange (consume l)) by apply G.
  unfold lexStmt in E.
  assert (Hk : forall l2 s2, (l2, s2) = (l', s) -> grows (consume l) l2 ->
               (s2 = None \/ stmtState s2) -> 
               grows l l' /\ (s = None \/ stmtState s) /\
               (atEnd l = false -> rdOffset l < rdOffset l')).
  { intros l2 s2 E2 G2 S2. injection E2 as <- <-.
    split; [eapply grows_trans; eassumption|]. split; [exact S2|].
    intros Hend. specialize (P Hend). destruct G2 as (_ & _ & G2). lia. }
  unfold stmtState in Hk.
  repeat match type of E with
  | (if ?b then _ else _) = _ => destruct b
  end; (eapply Hk; [exact E | | tauto]);
  first [ apply consumeSpace_grows | apply emit_grows, consumeIdent_grows
        | apply emit_grows, consumeString_grows | apply emit_grows, consumeComment_grows
        | apply emit_grows, grows_refl | apply grows_refl ]; exact Hc.
Qed.


Lemma consume_at_end_ch (l : lexer) : atEnd l = true -> ch (consume l) = eof.
Proof. intros H. unfold consume. rewrite H. reflexivity. Qed.

(** At the end of the source [lexStmt] emits the end-of-input token and
    stops the machine. *)
Lemma lexStmt_at_end (La Da : Z -> bool) (l : lexer) :
  atEnd l = true -> lexStmt La Da l = (emit EOF (consume l), None).
Proof.
  intros H. unfold lexStmt. rewrite (consume_at_end_ch l H). reflexivity.
Qed.

Lemma Tokens_consume_while_then (p : Z -> bool) (c : Z) (l : lexer) :
  Tokens (let l := consume_while p (src_fuel l) l in if peek l =? c then consume l else l)
  = Tokens l.
Proof.
  cbn zeta. destruct (_ =? c);
    rewrite ?LexerFacts.Tokens_consume; apply LexerFacts.Tokens_consume_while.
Qed.

Lemma lexBase_cases (l : lexer) :
  (exists l1, lexBase l = (l1, Some StCmd) /\ Tokens l1 = Tokens l) \/
  (exists l1, lexBase l = (emit (Lookup (literal l1)) l1, Some StStmt) /\
              IsKeyword (literal l1) = true /\ Tokens l1 = Tokens l /\
              (inRange l -> grows l l1)).
Proof.
  unfold lexBase.
  assert (Hsp : inRange l -> grows l (if IsSpace (peek l) then consumeSpace l else l)).
  { intros H. destruct (IsSpace _); [apply consumeSpace_grows, H | apply grows_refl, H]. }
  assert (Ht : Tokens (if IsSpace (peek l) then consumeSpace l else l) = Tokens l).
  { destruct (IsSpace _); [apply LexerFacts.Tokens_consumeSpace | reflexivity]. }
  assert (Hw : forall x, Tokens (consumeWord x) = Tokens x)
    by (intros x; apply LexerFacts.Tokens_consume_while).
  destruct (isAlphabet (peek l)); [|left; eexists; split; [reflexivity | exact Ht]].
  destruct (Token.IsKeyword (literal (consumeWord _))) eqn:Ek.
  2: { left. eexists. split; [reflexivity|]. cbn. rewrite Hw. exact Ht. }
  right. eexists. split; [reflexivity|]. split; [exact Ek|]. split; [rewrite Hw; exact Ht|].
  intros H. specialize (Hsp H). eapply grows_trans; [exact Hsp|].
  apply consumeWord_grows, Hsp.
Qed.

Definition rem (l : lexer) : nat := Z.to_nat (src_len l - rdOffset l).

(** Steps that suffice from a statement-mode state. *)
Definition need (s : stateFunc) (l : lexer) : nat :=
  match s with StStmt => 2 * rem l + 1 | _ => 2 * rem l + 2 end%nat.

Lemma run_from_stmt_total (La Da : Z -> bool) (n : nat) :
  forall (s : stateFunc) (l : lexer),
  stmtState (Some s) -> inRange l -> (need s l <= n)%nat ->
  exists l', run_from La Da n (Some s) l = Some l'.
Proof.
  induction n as [|n IH]; intros s l Hs Hl Hn.
  { destruct s; simpl in Hn; lia. }
  cbn [run_from]. destruct (step La Da s l) as [l1 s1] eqn:Est.
  destruct Hs as [Hs|[Hs|Hs]]; injection Hs as ->; cbn [step] in Est.
  - destruct (atEnd l) eqn:Hend.
    + rewrite (lexStmt_at_end La Da l Hend) in Est. injection Est as <- <-.
      destruct n; eexists; reflexivity.
    + destruct (lexStmt_grows La Da l l1 s1 Hl Est) as (G & [->|S1] & P).
      { destruct n; eexists; reflexivity. }
      specialize (P Hend).
      destruct s1 as [s1|]; [|destruct S1 as [E|[E|E]]; discriminate E].
      apply IH; [exact S1 | apply G |].
      destruct G as (Es & [I0 I1] & _). unfold need, rem, src_len in *. rewrite Es in *.
      destruct s1; lia.
  - cbn in Est. injection Est as <- <-.
    pose proof (emit_grows FLOAT _ _ (consume_while_grows (IsDigit Da) (src_fuel l) l Hl))
      as G.
    apply IH; [left; reflexivity | apply G |].
    destruct G as (Es & [I0 I1] & G). unfold need, rem, src_len in *. rewrite Es in *.
    cbn in Hn. lia.
  - cbn in Est. injection Est as <- <-. apply IH; [left; reflexivity | exact Hl |].
    unfold need, rem in *.
    change (src_len (emit (stmtOpType (ch l)) l)) with (src_len l).
    change (rdOffset (emit (stmtOpType (ch l)) l)) with (rdOffset l). lia.
Qed.

Lemma run_from_closed (La Da : Z -> bool) (n : nat) :
  forall s l l', run_from La Da n s l = Some l' -> closed l' = true.
Proof.
  induction n as [|n IH]; intros [s|] l l' H; cbn [run_from] in H.
  - discriminate H.
  - injection H as <-. reflexivity.
  - destruct (step La Da s l) as [l1 s1]. exact (IH _ _ _ H).
  - injection H as <-. reflexivity.
Qed.

(** The lexer always terminates: for every source, with or without an
    error handler, the state machine reaches a nil state within
    [3 * len(src) + 4] steps and the token stream is closed. *)
Theorem Lex_terminates (La Da : Z -> bool) (s : string) (hasErr : bool) :
  exists l, Lex La Da s hasErr = Some l /\ closed l = true.
Proof.
  assert (H : exists l, Lex La Da s hasErr = Some l).
  { unfold Lex. replace (3 * String.length s + 4)%nat with (S (3 * String.length s + 3)) by lia.
    cbn [run_from step].
    assert (Hl0 : inRange (newLexer s hasErr)).
    { unfold inRange, src_len. cbn. lia. }
    destruct (lexBase_cases (newLexer s hasErr)) as [(l1 & E & _)|(l1 & E & _ & _ & G)]; rewrite E.
    - replace (3 * String.length s + 3)%nat with (S (S (3 * String.length s + 1))) by lia.
      cbn [step lexCmd run_from]. eexists. reflexivity.
    - specialize (G Hl0). pose proof (emit_grows (Lookup (literal l1)) _ _ G) as G'.
      apply run_from_stmt_total; [left; reflexivity | apply G' |].
      destruct G' as (Es & [I0 I1] & _). unfold need, rem, src_len in *. rewrite Es.
      cbn in Es, I0, I1 |- *. lia. }
  destruct H as [l Hl]. exists l. split; [exact Hl|].
  exact (run_from_closed _ _ _ _ _ _ Hl).
Qed.


Lemma run_from_None (La Da : Z -> bool) (n : nat) (l : lexer) :
  run_from La Da n None l = Some (close l).
Proof. destruct n; reflexivity. Qed.

Definition noEOF (ts : list Token) : Prop := Forall (fun t => Type_ t <> EOF) ts.

Lemma Lookup_not_EOF (w : string) : Lookup w <> EOF.
Proof.
  unfold Lookup. destruct (keywords !! w) as [v|] eqn:E; [|discriminate].
  apply TokenExtra.keywords_Some in E as [Hk _].
  unfold IsKeyword_, keywordBeg, keywordEnd, EOF, Eof in *.
  apply andb_true_iff in Hk as [H1 _]. apply Z.ltb_lt in H1. lia.
Qed.

Lemma stmtOpType_not_EOF (c : Z) : stmtOpType c <> EOF.
Proof. unfold stmtOpType. repeat case_match; discriminate. Qed.

Lemma Tokens_emit (t : Z) (l : lexer) :
  Tokens (emit t l) = Tokens l ++ [{| Type_ := t; Literal := literal l; Position_ := start l |}].
Proof. reflexivity. Qed.

Lemma lexStmt_tokens (La Da : Z -> bool) (l l' : lexer) (s : option stateFunc) :
  lexStmt La Da l = (l', s) ->
  (s = None /\ exists t, Tokens l' = Tokens l ++ [t] /\ Type_ t = EOF) \/
  (stmtState s /\ exists ts, Tokens l' = Tokens l ++ ts /\ noEOF ts).
Proof.
  intros E. unfold lexStmt in E. unfold stmtState, noEOF.
  assert (Hc : Tokens (consume l) = Tokens l) by apply LexerFacts.Tokens_consume.
  repeat match type of E with
  | (if ?b then _ else _) = _ => destruct b
  end; injection E as <- <-.
  - right. split; [tauto|]. exists []. rewrite app_nil_r, LexerFacts.Tokens_consumeSpace.
    split; [exact Hc | constructor].
  - right. split; [tauto|]. eexists. rewrite Tokens_emit.
    unfold consumeIdent. rewrite LexerFacts.Tokens_consume_while, Hc.
    split; [reflexivity|]. constructor; [apply Lookup_not_EOF | constructor].
  - right. split; [tauto|]. exists []. rewrite app_nil_r. split; [exact Hc | constructor].
  - right. split; [tauto|]. eexists. rewrite Tokens_emit.
    unfold consumeString. rewrite Tokens_consume_while_then, Hc.
    split; [reflexivity|]. constructor; [discriminate | constructor].
  - right. split; [tauto|]. exists []. rewrite app_nil_r. split; [exact Hc | constructor].
  - right. split; [tauto|]. eexists. rewrite Tokens_emit.
    unfold consumeComment. rewrite Tokens_consume_while_then, Hc.
    split; [reflexivity|]. constructor; [discriminate | constructor].
  - left. split; [reflexivity|]. eexists. rewrite Tokens_emit, Hc.
    split; [reflexivity | reflexivity].
  - right. split; [tauto|]. eexists. rewrite Tokens_emit, Hc.
    split; [reflexivity|]. constructor; [discriminate | constructor].
Qed.

Lemma run_from_stmt_tokens (La Da : Z -> bool) (n : nat) :
  forall (s : option stateFunc) (l l' : lexer),
  stmtState s -> run_from La Da n s l = Some l' ->
  exists ts t, Tokens l' = Tokens l ++ ts ++ [t] /\ noEOF ts /\ Type_ t = EOF.
Proof.
  induction n as [|n IH]; intros s l l' Hs H.
  { destruct Hs as [-> | [-> | ->]]; discriminate H. }
  destruct Hs as [-> | [-> | ->]]; cbn [run_from step] in H.
  - destruct (lexStmt La Da l) as [l1 s1] eqn:E.
    destruct (lexStmt_tokens La Da l l1 s1 E) as [[-> (t & Ht & Et)]|[S1 (ts & Ht & Nt)]].
    + destruct n; cbn in H; injection H as <-; exists [], t; cbn;
        (split; [rewrite Ht; reflexivity | split; [constructor | exact Et]]).
    + destruct (IH s1 l1 l' S1 H) as (ts' & t & Ht' & Nt' & Et).
      exists (ts ++ ts'), t. split; [rewrite Ht', Ht, <- !app_assoc; reflexivity|].
      split; [apply Forall_app; split; assumption | exact Et].
  - cbn in H. destruct (IH (Some StStmt) _ l' (or_introl eq_refl) H) as (ts & t & Ht & Nt & Et).
    eexists (_ :: ts), t. rewrite Ht, Tokens_emit, LexerFacts.Tokens_consume_while.
    split; [rewrite <- app_assoc; reflexivity|]. split; [|exact Et].
    constructor; [discriminate | exact Nt].
  - cbn in H. destruct (IH (Some StStmt) _ l' (or_introl eq_refl) H) as (ts & t & Ht & Nt & Et).
    eexists (_ :: ts), t. rewrite Ht, Tokens_emit.
    split; [rewrite <- app_assoc; reflexivity|]. split; [|exact Et].
    constructor; [apply stmtOpType_not_EOF | exact Nt].
Qed.

(** The token stream of a lexer run is either empty, or a keyword token,
    then tokens none of which is an end-of-input token, then exactly one
    end-of-input token. *)
Theorem Lex_token_stream (La Da : Z -> bool) (s : string) (hasErr : bool) (l : lexer) :
  Lex La Da s hasErr = Some l ->
  Tokens l = [] \/
  exists k ts t, Tokens l = k :: ts ++ [t] /\ IsKeyword_ (Type_ k) = true /\
                 noEOF ts /\ Type_ t = EOF.
Proof.
  unfold Lex. replace (3 * String.length s + 4)%nat with (S (3 * String.length s + 3)) by lia.
  cbn [run_from step]. intros H.
  destruct (lexBase_cases (newLexer s hasErr)) as [(l1 & E & T1)|(l1 & E & Hk & T1 & _)];
    rewrite E in H.
  - left. replace (3 * String.length s + 3)%nat with (S (3 * String.length s + 2)) in H by lia.
    cbn [run_from step lexCmd] in H. rewrite run_from_None in H. injection H as <-. exact T1.
  - right. destruct (run_from_stmt_tokens La Da _ _ _ _ (or_introl eq_refl) H)
      as (ts & t & Ht & Nt & Et).
    rewrite Ht, Tokens_emit, T1. cbn. eexists _, ts, t. split; [reflexivity|].
    split; [|split; assumption]. cbn.
    unfold IsKeyword in Hk. apply bool_decide_eq_true in Hk as [v Hv].
    unfold Lookup. rewrite Hv. apply (TokenExtra.keywords_Some _ _ Hv).
Qed.


(** The lexer [l] with a nil error handler and no handler call recorded. *)
Definition strip (l : lexer) : lexer :=
  {| src := src l; ch := ch l; wd := wd l; insertSemi := insertSemi l;
     Tokens := Tokens l; closed := closed l; errSet := false; errCalls := [];
     offset := offset l; rdOffset := rdOffset l; start := start l; prev := prev l;
     pos := pos l; ErrCount := ErrCount l |}.

Lemma ignore_strip l : ignore (strip l) = strip (ignore l). Proof. reflexivity. Qed.
Lemma emit_strip t l : emit t (strip l) = strip (emit t l). Proof. reflexivity. Qed.
Lemma error_strip e l : error e (strip l) = strip (error e l). Proof. reflexivity. Qed.
Lemma advance_strip r w l : advance r w (strip l) = strip (advance r w l).
Proof. reflexivity. Qed.
Lemma backup_strip l : backup (strip l) = strip (backup l). Proof. reflexivity. Qed.
Lemma close_strip l : close (strip l) = strip (close l). Proof. reflexivity. Qed.

Lemma consume_strip l : consume (strip l) = strip (consume l).
Proof.
  unfold consume. change (atEnd (strip l)) with (atEnd l).
  change (byte_at (src (strip l)) (rdOffset (strip l))) with (byte_at (src l) (rdOffset l)).
  change (bytes_from (src (strip l)) (rdOffset (strip l))) with (bytes_from (src l) (rdOffset l)).
  change (offset (strip l)) with (offset l).
  destruct (atEnd l); [reflexivity|].
  destruct (_ =? 0); [reflexivity|]. destruct (_ <? RuneSelf); [reflexivity|].
  destruct (DecodeRuneInString _) as [r w].
  destruct (_ && _); [reflexivity|]. destruct (_ && _); reflexivity.
Qed.

Lemma consume_while_strip (p : Z -> bool) (n : nat) :
  forall l, consume_while p n (strip l) = strip (consume_while p n l).
Proof.
  induction n as [|n IH]; intros l; [reflexivity|]. cbn [consume_while].
  change (peek (strip l)) with (peek l). destruct (p (peek l)); [|reflexivity].
  rewrite consume_strip. apply IH.
Qed.

Lemma consumeString_strip l : consumeString (strip l) = strip (consumeString l).
Proof.
  unfold consumeString. change (src_fuel (strip l)) with (src_fuel l).
  rewrite consume_while_strip.
  change (peek (strip (consume_while (fun r => negb (r =? dquote) && negb (r =? eof)) (src_fuel l) l)))
    with (peek (consume_while (fun r => negb (r =? dquote) && negb (r =? eof)) (src_fuel l) l)).
  destruct (_ =? dquote); [apply consume_strip | reflexivity].
Qed.

Lemma consumeComment_strip l : consumeComment (strip l) = strip (consumeComment l).
Proof.
  unfold consumeComment. change (src_fuel (strip l)) with (src_fuel l).
  rewrite consume_while_strip.
  change (peek (strip (consume_while (fun r => negb (r =? chr "010") && negb (r =? eof)) (src_fuel l) l)))
    with (peek (consume_while (fun r => negb (r =? chr "010") && negb (r =? eof)) (src_fuel l) l)).
  destruct (_ =? chr "010"); [apply consume_strip | reflexivity].
Qed.

Lemma step_strip (La Da : Z -> bool) (f : stateFunc) (l : lexer) :
  step La Da f (strip l) = let '(l', s) := step La Da f l in (strip l', s).
Proof.
  destruct f; cbn [step].
  - unfold lexBase. change (peek (strip l)) with (peek l).
    assert (Hsp : (if IsSpace (peek l) then consumeSpace (strip l) else strip l)
                  = strip (if IsSpace (peek l) then consumeSpace l else l)).
    { destruct (IsSpace _); [|reflexivity]. unfold consumeSpace.
      change (src_fuel (strip l)) with (src_fuel l).
      rewrite consume_while_strip. reflexivity. }
    rewrite Hsp. destruct (isAlphabet (peek l)); [|reflexivity].
    unfold consumeWord. set (x := if IsSpace (peek l) then consumeSpace l else l).
    change (src_fuel (strip x)) with (src_fuel x). rewrite consume_while_strip.
    change (literal (strip (consume_while isAlphabet (src_fuel x) x)))
      with (literal (consume_while isAlphabet (src_fuel x) x)).
    destruct (Token.IsKeyword _); reflexivity.
  - unfold lexStmt. rewrite consume_strip. set (c := consume l).
    change (ch (strip c)) with (ch c).
    repeat match goal with
    | |- context [if ?b then _ else _] => destruct b
    end; try reflexivity.
    + unfold consumeSpace. change (src_fuel (strip c)) with (src_fuel c).
      rewrite consume_while_strip. reflexivity.
    + unfold consumeIdent. change (src_fuel (strip c)) with (src_fuel c).
      rewrite consume_while_strip. reflexivity.
    + rewrite consumeString_strip. reflexivity.
    + rewrite consumeComment_strip. reflexivity.
  - unfold lexNum. change (src_fuel (strip l)) with (src_fuel l).
    rewrite consume_while_strip. reflexivity.
  - reflexivity.
  - reflexivity.
Qed.

Lemma run_from_strip (La Da : Z -> bool) (n : nat) :
  forall s l, run_from La Da n s (strip l) = option_map strip (run_from La Da n s l).
Proof.
  induction n as [|n IH]; intros [f|] l; cbn [run_from]; try reflexivity.
  rewrite step_strip. destruct (step La Da f l) as [l1 s1]. apply IH.
Qed.

(** Whether an error handler is installed changes nothing but the
    recorded handler calls: without a handler the lexer emits the same
    tokens, reaches the same positions and counts the same errors. *)
Theorem Lex_handler_independent (La Da : Z -> bool) (s : string) :
  Lex La Da s false = option_map strip (Lex La Da s true) /\
  option_map Tokens (Lex La Da s false) = option_map Tokens (Lex La Da s true) /\
  option_map ErrCount (Lex La Da s false) = option_map ErrCount (Lex La Da s true).
Proof.
  assert (H : Lex La Da s false = option_map strip (Lex La Da s true)).
  { unfold Lex. change (newLexer s false) with (strip (newLexer s true)).
    apply run_from_strip. }
  split; [exact H|]. rewrite H.
  destruct (Lex La Da s true); split; reflexivity.
Qed.


(** With a handler ([errSet = b = true]) every counted error was passed
    to it; without one nothing is recorded. *)
Definition errOK (b : bool) (l : lexer) : Prop :=
  errSet l = b /\
  if b then ErrCount l = Z.of_nat (length (errCalls l)) else errCalls l = [].

Definition errs (l : lexer) : bool * list (Position * lexError) * Z :=
  (errSet l, errCalls l, ErrCount l).

Lemma errOK_errs (b : bool) (l l' : lexer) : errs l' = errs l -> errOK b l -> errOK b l'.
Proof. unfold errOK, errs. intros E. injection E as -> -> ->. exact (fun H => H). Qed.

Lemma errOK_error (b : bool) (e : lexError) (l : lexer) : errOK b l -> errOK b (error e l).
Proof.
  unfold errOK, error. cbn. intros [<- H]. split; [reflexivity|].
  destruct (errSet l); [|exact H].
  rewrite length_app. cbn. lia.
Qed.

Lemma errOK_consume (b : bool) (l : lexer) : errOK b l -> errOK b (consume l).
Proof.
  intros H. unfold consume.
  destruct (atEnd l); [exact H|].
  destruct (_ =? 0); [apply (errOK_errs b (error ErrNUL l)); [reflexivity | apply errOK_error, H]|].
  destruct (_ <? RuneSelf); [exact H|].
  destruct (DecodeRuneInString _) as [r w].
  destruct (_ && _); [apply (errOK_errs b (error ErrEnc l)); [reflexivity | apply errOK_error, H]|].
  destruct (_ && _); [apply (errOK_errs b (error ErrBOM l)); [reflexivity | apply errOK_error, H]|].
  exact H.
Qed.

Lemma errOK_consume_while (b : bool) (p : Z -> bool) (n : nat) :
  forall l, errOK b l -> errOK b (consume_while p n l).
Proof.
  induction n as [|n IH]; intros l H; [exact H|]. cbn [consume_while].
  destruct (p (peek l)); [apply IH, errOK_consume, H | exact H].
Qed.

Lemma errOK_step (La Da : Z -> bool) (b : bool) (f : stateFunc) (l : lexer) :
  errOK b l -> errOK b (fst (step La Da f l)).
Proof.
  intros H.
  assert (Hw : forall p x, errOK b x -> errOK b (consume_while p (src_fuel x) x))
    by (intros; apply errOK_consume_while; assumption).
  assert (Ht : forall p c x, errOK b x ->
            errOK b (let x := consume_while p (src_fuel x) x in
                   if peek x =? c then consume x else x)).
  { intros p c x Hx. cbn zeta. destruct (_ =? c); [apply errOK_consume|]; apply Hw, Hx. }
  destruct f; cbn [step].
  - unfold lexBase.
    assert (Hs : errOK b (if IsSpace (peek l) then consumeSpace l else l))
      by (destruct (IsSpace _); [apply Hw|]; exact H).
    destruct (isAlphabet _); [|exact Hs].
    destruct (Token.IsKeyword _); apply Hw, Hs.
  - unfold lexStmt. pose proof (errOK_consume b l H) as Hc.
    repeat match goal with
    | |- context [if ?b then _ else _] => destruct b
    end; cbn [fst];
    first [ exact Hc | apply Hw, Hc | apply Ht, Hc ].
  - apply Hw, H.
  - exact H.
  - exact H.
Qed.

Lemma errOK_run_from (La Da : Z -> bool) (b : bool) (n : nat) :
  forall s l l', errOK b l -> run_from La Da n s l = Some l' -> errOK b l'.
Proof.
  induction n as [|n IH]; intros [f|] l l' H E; cbn [run_from] in E.
  - discriminate E.
  - injection E as <-. exact H.
  - pose proof (errOK_step La Da b f l H) as H1.
    destruct (step La Da f l) as [l1 s1]. exact (IH _ _ _ H1 E).
  - injection E as <-. exact H.
Qed.

(** Lexing with and without an error handler: with one, the lexer's
    [ErrCount] equals the number of calls made to the handler; without
    one, no call is made, and the same number of errors is counted. *)
Theorem Lex_error_count (La Da : Z -> bool) (s : string) (l1 l2 : lexer) :
  Lex La Da s true = Some l1 -> Lex La Da s false = Some l2 ->
  ErrCount l1 = Z.of_nat (length (errCalls l1)) /\
  errCalls l2 = [] /\ ErrCount l2 = ErrCount l1.
Proof.
  intros E1 E2.
  assert (H : Lex La Da s false = option_map strip (Lex La Da s true)).
  { unfold Lex. change (newLexer s false) with (strip (newLexer s true)).
    apply run_from_strip. }
  rewrite E1, E2 in H. injection H as ->.
  destruct (errOK_run_from La Da true _ _ (newLexer s true) l1
              ltac:(split; reflexivity) E1) as [_ Hc].
  split; [exact Hc|]. split; reflexivity.
Qed.

(** [backup] undoes a [consume]: the read offset is restored, and the
    position too, except at the end of the source where [consume] does
    not move and [backup] steps [pos] back to [prev]. *)
Theorem consume_backup (l : lexer) :
  rdOffset (backup (consume l)) = rdOffset l /\
  pos (backup (consume l)) = (if atEnd l then prev l else pos l).
Proof.
  unfold consume. destruct (atEnd l); cbn; [split; [lia | reflexivity]|].
  repeat (case_match; cbn); split; first [lia | reflexivity].
Qed.

Lemma lor_high (a n : Z) :
  forallb (fun k => (128 <=? Z.lor a (0 + Z.of_nat k)) && (Z.lor a (0 + Z.of_nat k) <? 256))
    (seq 0 (Z.to_nat n)) = true ->
  forall x, 0 <= x < n -> 128 <= Z.lor a x < 256.
Proof.
  intros H x Hx.
  pose proof (TokenExtra.forall_range (fun x => (128 <=? Z.lor a x) && (Z.lor a x <? 256))
                0 (Z.to_nat n)) as F.
  specialize (F H x ltac:(lia)). cbn beta in F.
  rename F into Hc. apply andb_true_iff in Hc as [H1 H2]. lia.
Qed.

(** A rune outside ASCII is encoded with a leading byte in [128, 256). *)
Lemma encode_rune_high (c : Z) :
  ~ (0 <= c < 128) -> exists b bs, encode_rune c = b :: bs /\ 128 <= b < 256.
Proof.
  intros Hc. unfold encode_rune.
  set (r := if (c <? 0) || (MaxRune <? c) || (55296 <=? c) && (c <=? 57343) then RuneError else c).
  assert (Hr : 128 <= r <= MaxRune).
  { subst r. unfold MaxRune, RuneError.
    destruct (Z.ltb_spec c 0), (Z.ltb_spec 1114111 c); cbn; try lia.
    destruct (_ && _); lia. }
  clearbody r. unfold MaxRune in Hr.
  destruct (Z.ltb_spec r 128); [lia|].
  destruct (Z.ltb_spec r 2048).
  { eexists; eexists; split; [reflexivity|]. apply (lor_high 192 32); [reflexivity|].
    rewrite Z.shiftr_div_pow2 by lia. change (2 ^ 6) with 64.
    split; [apply Z.div_pos; lia | apply Z.div_lt_upper_bound; lia]. }
  destruct (Z.ltb_spec r 65536).
  { eexists; eexists; split; [reflexivity|]. apply (lor_high 224 16); [reflexivity|].
    rewrite Z.shiftr_div_pow2 by lia. change (2 ^ 12) with 4096.
    split; [apply Z.div_pos; lia | apply Z.div_lt_upper_bound; lia]. }
  eexists; eexists; split; [reflexivity|]. apply (lor_high 240 5); [reflexivity|].
  rewrite Z.shiftr_div_pow2 by lia. change (2 ^ 18) with 262144.
  split; [apply Z.div_pos; lia | apply Z.div_lt_upper_bound; lia].
Qed.

Definition ascii_head (s : string) : bool :=
  match s with
  | String.String a _ => Ascii.nat_of_ascii a <? 128
  | String.EmptyString => true
  end%nat.

Lemma tokens_ascii_head (s : string) : In s tokens -> ascii_head s = true.
Proof.
  assert (H : forallb ascii_head tokens = true) by reflexivity.
  rewrite forallb_forall in H. apply H.
Qed.

Lemma IsOperator_In (s : string) : Token.IsOperator s = true -> In s tokens.
Proof.
  intros H. destruct (in_dec String.string_dec s tokens) as [I|N]; [exact I|].
  unfold Token.IsOperator, token in H.
  rewrite (proj2 (TokenExtra.token_from_spec s tokens 0) N) in H. discriminate H.
Qed.

Lemma IsOperator_rune_ascii (c : Z) :
  Token.IsOperator (string_of_rune c) = true -> 0 <= c < 128.
Proof.
  intros H. apply IsOperator_In, tokens_ascii_head in H.
  destruct (Z.le_gt_cases 0 c), (Z.lt_ge_cases c 128); try (split; lia);
  (destruct (encode_rune_high c ltac:(lia)) as (b & bs & E & Hb);
   unfold string_of_rune, string_of_bytes in H; rewrite E in H; cbn in H;
   rewrite Ascii.nat_ascii_embedding in H by lia; apply Nat.leb_le in H; lia).
Qed.

Lemma stmtOpType_ascii (c : Z) : stmtOpType c <> Illegal -> 0 <= c < 128.
Proof.
  unfold stmtOpType.
  repeat match goal with
  | |- context [Z.eqb c ?d] => destruct (Z.eqb_spec c d) as [->|_]; [intros _; split; [apply Z.leb_le | apply Z.ltb_lt]; reflexivity|]
  end.
  intros H; exfalso; apply H; reflexivity.
Qed.

(** The expected kind: the table's kind of the one-character spelling,
    except for [\[] ([LeftParen]) and for ['] and [.], which the switch
    does not list. *)
Definition stmtOp_expected (c : Z) : Z :=
  if c =? chr "[" then LeftParen
  else if (c =? chr "'") || (c =? chr ".") then Illegal
  else token (string_of_rune c).

(** The switch of [lexStmtOp] agrees with the token table on every
    operator character, except that [\[] gives [LeftParen] and ['] and
    [.] give [Illegal]; and every character it lists is an operator
    character on which [lexStmt], reading it in statement mode, passes
    over its space, identifier, digit and string cases and hands over to
    [lexStmtOp], which emits the switch's kind. *)
Theorem stmtOpType_table (La Da : Z -> bool) (c : Z) :
  (Token.IsOperator (string_of_rune c) = true -> stmtOpType c = stmtOp_expected c) /\
  (stmtOpType c <> Illegal ->
     Token.IsOperator (string_of_rune c) = true /\
     forall l, atEnd l = false -> byte_at (src l) (rdOffset l) = c ->
       LexerFacts.stmt_op_emits La Da l (stmtOpType c)).
Proof.
  assert (Hf : forall c, 0 <= c < 128 ->
    (fun c => implb (Token.IsOperator (string_of_rune c)) (stmtOpType c =? stmtOp_expected c)
              && implb (negb (stmtOpType c =? Illegal)) (Token.IsOperator (string_of_rune c))) c
    = true).
  { intros d Hd.
    refine (TokenExtra.forall_range
      (fun c => implb (Token.IsOperator (string_of_rune c)) (stmtOpType c =? stmtOp_expected c)
              && implb (negb (stmtOpType c =? Illegal)) (Token.IsOperator (string_of_rune c)))
      0 128 _ d ltac:(lia)).
    vm_compute; reflexivity. }
  split; intros H.
  - pose proof (Hf c (IsOperator_rune_ascii c H)) as Hc. cbn beta in Hc.
    rewrite H in Hc. cbn in Hc. apply andb_true_iff in Hc as [Hc _]. apply Z.eqb_eq, Hc.
  - assert (Hop : Token.IsOperator (string_of_rune c) = true).
    { pose proof (Hf c (stmtOpType_ascii c H)) as Hc. cbn beta in Hc.
      apply andb_true_iff in Hc as [_ Hc].
      apply Z.eqb_neq in H. rewrite H in Hc. exact Hc. }
    split; [exact Hop|]. intros l Hend Hb.
    apply (LexerFacts.lexStmt_ascii_op La Da l c Hend Hb); [| | | | | exact Hop];
      unfold stmtOpType in H;
      repeat match type of H with
      | context [Z.eqb c ?d] =>
          destruct (Z.eqb_spec c d) as [->|_]; [cbv; try discriminate; split; reflexivity|]
      end;
      exfalso; apply H; reflexivity.
Qed.

Lemma get_substring (s : string) :
  forall n m, (0 < m)%nat ->
  match String.substring n m s with
  | String.String a _ => String.get n s = Some a
  | String.EmptyString => True
  end.
Proof.
  induction s as [|c s IH]; intros [|n] m Hm; cbn.
  - destruct m; exact I.
  - destruct m; exact I.
  - destruct m; [lia | reflexivity].
  - apply IH, Hm.
Qed.

Lemma byte_at_head (s : string) (i b : Z) (bs : list Z) :
  bytes_from s i = b :: bs -> byte_at s i = b.
Proof.
  unfold bytes_from, byte_at. intros H.
  destruct (String.length s) as [|len] eqn:El.
  { pose proof (substring_length s (Z.to_nat i) 0) as L.
    destruct (String.substring _ 0 s); [discriminate H | cbn in L; lia]. }
  pose proof (get_substring s (Z.to_nat i) (S len) ltac:(lia)) as G.
  destruct (String.substring (Z.to_nat i) (S len) s) as [|a rest]; [discriminate H|].
  rewrite G. cbn in H. injection H as <- _. reflexivity.
Qed.

(** On the UTF-8 encoding of a valid rune [r] other than NUL, [consume]
    sets [ch] to [r] and [wd] to the length of the encoding, advances the
    read offset by it, and counts an error only for a byte order mark
    read after the first token. *)
Theorem consume_decodes (l : lexer) (r : Z) (rest : list Z) :
  bytes_from (src l) (rdOffset l) = encode_rune r ++ rest ->
  0 < r <= MaxRune -> ~ (55296 <= r <= 57343) ->
  ch (consume l) = r /\ wd (consume l) = Z.of_nat (length (encode_rune r)) /\
  rdOffset (consume l) = rdOffset l + wd (consume l) /\
  ErrCount (consume l) = (if (r =? bom) && (0 <? offset l) then ErrCount l + 1 else ErrCount l).
Proof.
  intros Hb Hr Hs.
  assert (Hne : encode_rune r <> []).
  { destruct (Z.lt_ge_cases r 128).
    - rewrite Utf8Extra.encode_1 by lia. discriminate.
    - pose proof (Utf8Extra.encode_length r ltac:(lia) Hs) as L. intros E. rewrite E in L. cbn in L. lia. }
  destruct (encode_rune r) as [|b0 bs] eqn:Ee; [contradiction|].
  assert (Hend : atEnd l = false).
  { pose proof (bytes_from_length (src l) (rdOffset l)) as L. rewrite Hb in L. cbn in L.
    unfold atEnd, src_len. apply Z.leb_gt. lia. }
  pose proof (byte_at_head _ _ _ _ Hb) as Hh.
  unfold consume. rewrite Hend, Hh.
  destruct (Z.lt_ge_cases r 128) as [Hlt|Hge].
  - rewrite Utf8Extra.encode_1 in Ee by lia. injection Ee as <- <-.
    destruct (Z.eqb_spec r 0) as [|_]; [lia|]. unfold RuneSelf.
    destruct (Z.ltb_spec r 128) as [_|]; [|lia]. cbn.
    unfold bom. destruct (Z.eqb_spec r 65279); [lia|]. cbn. lia.
  - destruct (encode_rune_high r ltac:(lia)) as (b & bs' & Eb & Hb0).
    rewrite Ee in Eb. injection Eb as <- <-.
    destruct (Z.eqb_spec b0 0) as [|_]; [lia|]. unfold RuneSelf.
    destruct (Z.ltb_spec b0 128) as [|_]; [lia|].
    rewrite Hb, <- Ee, Utf8Extra.decode_encode by lia.
    pose proof (Utf8Extra.encode_length r ltac:(lia) Hs) as L.
    destruct (Z.eqb_spec (Z.of_nat (length (encode_rune r))) 1) as [E1|_]; [lia|].
    rewrite andb_false_r.
    destruct (_ && _); cbn; lia.
Qed.

(** A token of an identifier or keyword kind carries the kind its
    literal looks up to. *)
Definition wordOK (t : Token) : Prop :=
  Type_ t = Identifier \/ IsKeyword_ (Type_ t) = true -> Type_ t = Lookup (Literal t).

Lemma wordOK_emit_other (k : Z) (l : lexer) :
  k <> Identifier -> IsKeyword_ k = false ->
  Forall wordOK (Tokens l) -> Forall wordOK (Tokens (emit k l)).
Proof.
  intros H1 H2 H. rewrite Tokens_emit. apply Forall_app. split; [exact H|].
  constructor; [|constructor]. unfold wordOK. cbn. intros [E|E]; congruence.
Qed.

Lemma wordOK_emit_Lookup (l : lexer) :
  Forall wordOK (Tokens l) -> Forall wordOK (Tokens (emit (Lookup (literal l)) l)).
Proof.
  intros H. rewrite Tokens_emit. apply Forall_app. split; [exact H|].
  constructor; [|constructor]. intros _. reflexivity.
Qed.

Lemma stmtOpType_word (c : Z) : stmtOpType c <> Identifier /\ IsKeyword_ (stmtOpType c) = false.
Proof. unfold stmtOpType. repeat case_match; split; try discriminate; reflexivity. Qed.

Lemma wordOK_step (La Da : Z -> bool) (f : stateFunc) (l : lexer) :
  Forall wordOK (Tokens l) -> Forall wordOK (Tokens (fst (step La Da f l))).
Proof.
  intros H. destruct f; cbn [step].
  - destruct (lexBase_cases l) as [(l1 & E & T1)|(l1 & E & _ & T1 & _)]; rewrite E; cbn [fst].
    + rewrite T1. exact H.
    + apply wordOK_emit_Lookup. rewrite T1. exact H.
  - unfold lexStmt.
    assert (Hc : Forall wordOK (Tokens (consume l))) by (rewrite LexerFacts.Tokens_consume; exact H).
    repeat match goal with
    | |- context [if ?b then _ else _] => destruct b
    end; cbn [fst].
    + rewrite LexerFacts.Tokens_consumeSpace. exact Hc.
    + apply wordOK_emit_Lookup. unfold consumeIdent.
      rewrite LexerFacts.Tokens_consume_while. exact Hc.
    + exact Hc.
    + apply wordOK_emit_other; [discriminate | reflexivity |].
      unfold consumeString. rewrite Tokens_consume_while_then. exact Hc.
    + exact Hc.
    + apply wordOK_emit_other; [discriminate | reflexivity |].
      unfold consumeComment. rewrite Tokens_consume_while_then. exact Hc.
    + apply wordOK_emit_other; [discriminate | reflexivity | exact Hc].
    + apply wordOK_emit_other; [discriminate | reflexivity | exact Hc].
  - cbn [fst lexNum]. apply wordOK_emit_other; [discriminate | reflexivity |].
    rewrite LexerFacts.Tokens_consume_while. exact H.
  - cbn [fst lexStmtOp]. destruct (stmtOpType_word (ch l)) as [H1 H2].
    apply wordOK_emit_other; assumption.
  - exact H.
Qed.

Lemma wordOK_run_from (La Da : Z -> bool) (n : nat) :
  forall s l l', Forall wordOK (Tokens l) -> run_from La Da n s l = Some l' ->
  Forall wordOK (Tokens l').
Proof.
  induction n as [|n IH]; intros [f|] l l' H E; cbn [run_from] in E.
  - discriminate E.
  - injection E as <-. exact H.
  - pose proof (wordOK_step La Da f l H) as H1.
    destruct (step La Da f l) as [l1 s1]. exact (IH _ _ _ H1 E).
  - injection E as <-. exact H.
Qed.

(** Every identifier or keyword token the lexer emits has the kind that
    [token.Lookup] gives for its literal. *)
Theorem Lex_word_kinds (La Da : Z -> bool) (s : string) (hasErr : bool) (l : lexer) :
  Lex La Da s hasErr = Some l ->
  Forall (fun t => Type_ t = Identifier \/ IsKeyword_ (Type_ t) = true ->
                   Type_ t = Lookup (Literal t)) (Tokens l).
Proof.
  intros E. exact (wordOK_run_from La Da _ _ (newLexer s hasErr) _ (Forall_nil_2 _) E).
Qed.

(** Instances of the lexer theorems on concrete sources. *)
Lemma consume_bounds_witness :
  0 <= rdOffset (newLexer "a" true) /\
  rdOffset (consume (newLexer "a" true)) =
    rdOffset (newLexer "a" true) + wd (consume (newLexer "a" true)) /\
  1 <= wd (consume (newLexer "a" true)) <= 4.
Proof.
  assert (H : 0 <= rdOffset (newLexer "a" true)) by (cbn; lia).
  destruct (consume_bounds (newLexer "a" true) H) as [_ H2].
  destruct (H2 eq_refl) as (E & W & _). split; [exact H | split; [exact E | exact W]].
Defined.

Lemma Lex_token_stream_witness :
  exists l, Lex TokenExtra.noneAbove TokenExtra.noneAbove "let x" false = Some l /\
  (Tokens l = [] \/
   exists k ts t, Tokens l = k :: ts ++ [t] /\ IsKeyword_ (Type_ k) = true /\
                  noEOF ts /\ Type_ t = EOF).
Proof.
  destruct (Lex TokenExtra.noneAbove TokenExtra.noneAbove "let x" false) as [l|] eqn:E.
  - exists l. split; [reflexivity | exact (Lex_token_stream _ _ _ _ _ E)].
  - exfalso. vm_compute in E. discriminate E.
Defined.

(** The source [let] followed by a NUL byte. *)
Definition let_nul : string := ("let " +:+ String.String (Ascii.ascii_of_nat 0) "")%string.

Lemma Lex_error_count_witness :
  exists l1 l2,
    Lex TokenExtra.noneAbove TokenExtra.noneAbove let_nul true = Some l1 /\
    Lex TokenExtra.noneAbove TokenExtra.noneAbove let_nul false = Some l2 /\
    ErrCount l1 = 1 /\
    (ErrCount l1 = Z.of_nat (length (errCalls l1)) /\
     errCalls l2 = [] /\ ErrCount l2 = ErrCount l1).
Proof.
  destruct (Lex TokenExtra.noneAbove TokenExtra.noneAbove let_nul true) as [l1|] eqn:E1;
    [|exfalso; vm_compute in E1; discriminate E1].
  destruct (Lex TokenExtra.noneAbove TokenExtra.noneAbove let_nul false) as [l2|] eqn:E2;
    [|exfalso; vm_compute in E2; discriminate E2].
  exists l1, l2. split; [reflexivity|]. split; [reflexivity|].
  split; [vm_compute in E1; injection E1 as <-; reflexivity|].
  exact (Lex_error_count _ _ _ _ _ E1 E2).
Defined.

Lemma Lex_word_kinds_witness :
  exists l, Lex TokenExtra.noneAbove TokenExtra.noneAbove "let x" false = Some l /\
  Forall (fun t => Type_ t = Identifier \/ IsKeyword_ (Type_ t) = true ->
                   Type_ t = Lookup (Literal t)) (Tokens l).
Proof.
  destruct (Lex TokenExtra.noneAbove TokenExtra.noneAbove "let x" false) as [l|] eqn:E.
  - exists l. split; [reflexivity | exact (Lex_word_kinds _ _ _ _ _ E)].
  - exfalso. vm_compute in E. discriminate E.
Defined.

(** A source holding the rune U+03BB (two bytes in UTF-8). *)
Definition lambda_src : string := string_of_rune 955.

Lemma consume_decodes_witness :
  bytes_from (src (newLexer lambda_src false)) (rdOffset (newLexer lambda_src false))
    = encode_rune 955 ++ [] /\
  0 < 955 <= MaxRune /\ ~ (55296 <= 955 <= 57343) /\
  ch (consume (newLexer lambda_src false)) = 955 /\
  wd (consume (newLexer lambda_src false)) = 2.
Proof.
  assert (H : bytes_from (src (newLexer lambda_src false)) (rdOffset (newLexer lambda_src false))
              = encode_rune 955 ++ []) by (vm_compute; reflexivity).
  assert (H1 : 0 < 955 <= MaxRune) by (unfold MaxRune; lia).
  assert (H2 : ~ (55296 <= 955 <= 57343)) by lia.
  destruct (consume_decodes (newLexer lambda_src false) 955 [] H H1 H2) as (C & W & _).
  split; [exact H|]. split; [exact H1|]. split; [exact H2|]. split; [exact C|].
  rewrite W. reflexivity.
Defined.

End LexerExtra.

Module LexerRead.
Import Token Unicode Lexer LexerExtra.

(** Modelled from the spec: [consume] reporting a byte-order mark
    "anywhere but the very first position", that is whenever the rune's
    own offset [l.rdOffset] is not 0, where the source tests [l.offset],
    the start of the current token.  Otherwise it is [consume]. *)
Definition consume_at_rune (l : lexer) : lexer :=
  if atEnd l then
    {| src := src l; ch := eof; wd := 0; insertSemi := insertSemi l;
       Tokens := Tokens l; closed := closed l; errSet := errSet l;
       errCalls := errCalls l; offset := offset l; rdOffset := rdOffset l;
       start := start l; prev := prev l; pos := pos l; ErrCount := ErrCount l |}
  else
    let r := byte_at (src l) (rdOffset l) in
    if r =? 0 then advance r 1 (error ErrNUL l)
    else if r <? RuneSelf then advance r 1 l
    else
      let '(r, w) := DecodeRuneInString (bytes_from (src l) (rdOffset l)) in
      if (r =? RuneError) && (w =? 1) then advance r w (error ErrEnc l)
      else if (r =? bom) && (0 <? rdOffset l) then advance r w (error ErrBOM l)
      else advance r w l.

(** The state functions of [state.go] and the helpers they call, as in
    module [Lexer], with the rune reader [consume] as a parameter [cons]:
    [Lex_with consume] is [Lex] (lemma [Lex_with_consume]). *)
Section Machine.
Variable cons : lexer -> lexer.
Variable isLetterAbove : Z -> bool.
Variable isDigitAbove : Z -> bool.

Fixpoint consume_while_with (p : Z -> bool) (n : nat) (l : lexer) : lexer :=
  match n with
  | O => l
  | S n' => if p (peek l) then consume_while_with p n' (cons l) else l
  end.

Definition consumeSpace_with (l : lexer) : lexer :=
  ignore (consume_while_with IsSpace (src_fuel l) l).

Definition consumeWord_with (l : lexer) : lexer :=
  consume_while_with isAlphabet (src_fuel l) l.

Definition consumeIdent_with (l : lexer) : lexer :=
  consume_while_with (isIdent isLetterAbove isDigitAbove) (src_fuel l) l.

Definition consumeString_with (l : lexer) : lexer :=
  let l := consume_while_with (fun r => negb (r =? dquote) && negb (r =? eof)) (src_fuel l) l in
  if peek l =? dquote then cons l else l.

Definition consumeComment_with (l : lexer) : lexer :=
  let l := consume_while_with (fun r => negb (r =? chr "010") && negb (r =? eof)) (src_fuel l) l in
  if peek l =? chr "010" then cons l else l.

Definition lexBase_with (l : lexer) : lexer * option stateFunc :=
  let r := peek l in
  let l := if IsSpace r then consumeSpace_with l else l in
  if isAlphabet r then
    let l := consumeWord_with l in
    let word := literal l in
    if Token.IsKeyword word then (emit (Token.Lookup word) l, Some StStmt)
    else (backup l, Some StCmd)
  else (l, Some StCmd).

Definition lexStmt_with (l : lexer) : lexer * option stateFunc :=
  let l := cons l in
  if IsSpace (ch l) then (consumeSpace_with l, Some StStmt)
  else if isIdentStart isLetterAbove (ch l) then
    let l := consumeIdent_with l in (emit (Token.Lookup (literal l)) l, Some StStmt)
  else if IsDigit isDigitAbove (ch l) then (l, Some StNum)
  else if ch l =? dquote then (emit STRING (consumeString_with l), Some StStmt)
  else if Token.IsOperator (string_of_rune (ch l)) then (l, Some StStmtOp)
  else if ch l =? chr "#" then (emit COMMENT (consumeComment_with l), Some StStmt)
  else if ch l =? eof then (emit EOF l, None)
  else (emit ILLEGAL l, Some StStmt).

Definition lexNum_with (l : lexer) : lexer * option stateFunc :=
  (emit FLOAT (consume_while_with (IsDigit isDigitAbove) (src_fuel l) l), Some StStmt).

Definition step_with (s : stateFunc) (l : lexer) : lexer * option stateFunc :=
  match s with
  | StBase => lexBase_with l
  | StStmt => lexStmt_with l
  | StNum => lexNum_with l
  | StStmtOp => lexStmtOp l
  | StCmd => lexCmd l
  end.

Fixpoint run_from_with (fuel : nat) (s : option stateFunc) (l : lexer) : option lexer :=
  match s with
  | None => Some (close l)
  | Some f =>
      match fuel with
      | O => None
      | S fuel' => let '(l', s') := step_with f l in run_from_with fuel' s' l'
      end
  end.

Definition Lex_with (s : string) (hasErr : bool) : option lexer :=
  run_from_with (3 * String.length s + 4) (Some StBase) (newLexer s hasErr).

End Machine.

(** A fault counted once, passed to the handler (when there is one) with
    the position [pos l] of the rune being read, and skipped as [w]
    bytes; no token is emitted. *)
Definition reported (e : lexError) (w : Z) (l l' : lexer) : Prop :=
  ErrCount l' = ErrCount l + 1 /\
  errCalls l' = (if errSet l then errCalls l ++ [(pos l, e)] else errCalls l) /\
  rdOffset l' = rdOffset l + w /\ Tokens l' = Tokens l.

(** The state invariant of a run: in statement mode the current token
    starts after the first byte. *)
Definition stmtInv (l : lexer) : Prop := inRange l /\ 0 < offset l <= rdOffset l.

Definition runInv (f : stateFunc) (l : lexer) : Prop :=
  match f with
  | StBase => inRange l /\ 0 <= offset l
  | StCmd => True
  | _ => stmtInv l
  end.

(* ------------------------------------------------------------------ *)

Lemma Lex_with_consume (La Da : Z -> bool) (s : string) (hasErr : bool) :
  Lex_with consume La Da s hasErr = Lex La Da s hasErr.
Proof. reflexivity. Qed.

Lemma consume_at_rune_end (l : lexer) : atEnd l = true -> consume_at_rune l = consume l.
Proof. intros H. unfold consume_at_rune, consume. rewrite H. reflexivity. Qed.

Lemma consume_at_rune_pos (l : lexer) :
  0 < offset l -> 0 < rdOffset l -> consume_at_rune l = consume l.
Proof.
  intros H1 H2. unfold consume_at_rune, consume.
  rewrite (proj2 (Z.ltb_lt 0 (offset l)) H1), (proj2 (Z.ltb_lt 0 (rdOffset l)) H2).
  reflexivity.
Qed.

Lemma consume_at_rune_byte (l : lexer) :
  atEnd l = false ->
  byte_at (src l) (rdOffset l) < RuneSelf \/ first_info (byte_at (src l) (rdOffset l)) = None ->
  consume_at_rune l = consume l.
Proof.
  intros Hend Hb. unfold consume_at_rune, consume. rewrite Hend. cbv zeta.
  destruct (_ =? 0); [reflexivity|].
  destruct (Z.ltb_spec (byte_at (src l) (rdOffset l)) RuneSelf) as [_|Hge]; [reflexivity|].
  destruct Hb as [Hb|Hfi]; [lia|].
  assert (D : exists w, DecodeRuneInString (bytes_from (src l) (rdOffset l)) = (RuneError, w)).
  { destruct (bytes_from (src l) (rdOffset l)) as [|b bs] eqn:Eb; [exists 0; reflexivity|].
    pose proof (byte_at_head _ _ _ _ Eb) as Hh. rewrite Hh in Hge, Hfi.
    cbn [DecodeRuneInString]. destruct (Z.ltb_spec b RuneSelf); [lia|].
    rewrite Hfi. exists 1. reflexivity. }
  destruct D as [w ->]. reflexivity.
Qed.

Lemma first_info_none (x : Z) : x < 194 \/ 244 < x -> first_info x = None.
Proof.
  intros H. unfold first_info.
  repeat match goal with
  | |- context [?a <=? ?b] => destruct (Z.leb_spec a b); try lia
  | |- context [?a =? ?b] => destruct (Z.eqb_spec a b); try lia
  end; reflexivity.
Qed.

(** The scans of [lexBase] read only ASCII letters and spaces, or a
    Latin-1 space byte that is not a leading byte. *)
Lemma consume_while_with_bytes (p : Z -> bool) :
  (forall x, p x = true -> x < RuneSelf \/ first_info x = None) ->
  forall n l, consume_while_with consume_at_rune p n l = consume_while p n l.
Proof.
  intros Hp. induction n as [|n IH]; intros l; [reflexivity|]. cbn [consume_while_with consume_while].
  destruct (p (peek l)) eqn:E; [|reflexivity].
  rewrite IH. f_equal.
  destruct (atEnd l) eqn:Hend; [apply consume_at_rune_end, Hend|].
  apply consume_at_rune_byte; [exact Hend|]. apply Hp.
  unfold peek in E. rewrite Hend in E. exact E.
Qed.

Lemma IsSpace_bytes (x : Z) : IsSpace x = true -> x < RuneSelf \/ first_info x = None.
Proof.
  intros H. destruct (Z.ltb_spec x RuneSelf) as [|Hx]; [left; lia|right].
  apply first_info_none. unfold IsSpace, MaxLatin1 in H. unfold RuneSelf in Hx.
  destruct (Z.leb_spec 0 x), (Z.leb_spec x 255); cbn in H;
    rewrite ?Bool.orb_true_iff, ?Bool.andb_true_iff, ?Z.leb_le, ?Z.eqb_eq in H; lia.
Qed.

Lemma isAlphabet_bytes (x : Z) : isAlphabet x = true -> x < RuneSelf \/ first_info x = None.
Proof.
  intros H. left. unfold isAlphabet in H. change (chr "Z") with 90 in H.
  change (chr "z") with 122 in H.
  rewrite Bool.orb_true_iff, !Bool.andb_true_iff, !Z.ltb_lt in H. unfold RuneSelf. lia.
Qed.

Lemma lexBase_with_agree (l : lexer) : lexBase_with consume_at_rune l = lexBase l.
Proof.
  unfold lexBase_with, lexBase, consumeSpace_with, consumeSpace, consumeWord_with, consumeWord.
  cbv zeta.
  rewrite !(consume_while_with_bytes _ IsSpace_bytes).
  rewrite !(consume_while_with_bytes _ isAlphabet_bytes).
  reflexivity.
Qed.

Lemma offset_consume (l : lexer) : offset (consume l) = offset l.
Proof. unfold consume. repeat case_match; reflexivity. Qed.

Lemma stmtInv_consume (l : lexer) : stmtInv l -> stmtInv (consume l).
Proof.
  intros [Hr Ho]. destruct (consume_grows l Hr) as [(_ & Hr' & Hle) _].
  split; [exact Hr'|]. rewrite offset_consume. lia.
Qed.

Lemma consume_while_with_stmt (p : Z -> bool) (n : nat) :
  forall l, stmtInv l ->
  consume_while_with consume_at_rune p n l = consume_while p n l /\
  stmtInv (consume_while p n l).
Proof.
  induction n as [|n IH]; intros l H; [split; [reflexivity | exact H]|].
  cbn [consume_while_with consume_while]. destruct (p (peek l)); [|split; [reflexivity | exact H]].
  destruct H as [Hr Ho] eqn:Hs.
  rewrite (consume_at_rune_pos l) by lia. apply IH, stmtInv_consume. exact (conj Hr Ho).
Qed.

Lemma stmtInv_ignore (l : lexer) : stmtInv l -> stmtInv (ignore l).
Proof. intros [Hr Ho]. split; [exact Hr|]. cbn. lia. Qed.

Lemma stmtInv_emit (t : Z) (l : lexer) : stmtInv l -> stmtInv (emit t l).
Proof. intros [Hr Ho]. split; [exact Hr|]. cbn. lia. Qed.

Lemma consume_while_then_stmt (p : Z -> bool) (c : Z) (l : lexer) :
  stmtInv l ->
  (let l := consume_while_with consume_at_rune p (src_fuel l) l in
   if peek l =? c then consume_at_rune l else l)
  = (let l := consume_while p (src_fuel l) l in if peek l =? c then consume l else l) /\
  stmtInv (let l := consume_while p (src_fuel l) l in if peek l =? c then consume l else l).
Proof.
  intros H. cbv zeta. destruct (consume_while_with_stmt p (src_fuel l) l H) as [-> H1].
  destruct (_ =? c); [|split; [reflexivity | exact H1]].
  destruct H1 as [Hr Ho] eqn:Hs.
  rewrite (consume_at_rune_pos _) by lia. split; [reflexivity|].
  apply stmtInv_consume. exact (conj Hr Ho).
Qed.

Lemma lexStmt_with_agree (La Da : Z -> bool) (l : lexer) :
  stmtInv l ->
  lexStmt_with consume_at_rune La Da l = lexStmt La Da l /\
  (forall l' f, lexStmt La Da l = (l', Some f) -> runInv f l').
Proof.
  intros H. destruct H as [Hr Ho] eqn:Hs.
  unfold lexStmt_with, lexStmt. cbv zeta.
  rewrite (consume_at_rune_pos l) by lia.
  pose proof (stmtInv_consume l H) as Hc. set (c := consume l) in *. clearbody c.
  unfold consumeSpace_with, consumeSpace, consumeIdent_with, consumeIdent,
    consumeString_with, consumeString, consumeComment_with, consumeComment.
  destruct (consume_while_with_stmt IsSpace (src_fuel c) c Hc) as [-> H1].
  destruct (consume_while_with_stmt (isIdent La Da) (src_fuel c) c Hc) as [-> H2].
  destruct (consume_while_then_stmt (fun r => negb (r =? dquote) && negb (r =? eof))
              dquote c Hc) as [E3 H3].
  destruct (consume_while_then_stmt (fun r => negb (r =? chr "010") && negb (r =? eof))
              (chr "010") c Hc) as [E4 H4].
  cbv zeta in E3, H3, E4, H4. rewrite E3, E4.
  split; [reflexivity|].
  intros l' f E.
  repeat match type of E with
  | (if ?b then _ else _) = _ => destruct b
  end; [..| discriminate E |];
  injection E as <- <-; cbn [runInv];
  first [ exact Hc | apply stmtInv_ignore, H1 | apply stmtInv_emit, H2
        | apply stmtInv_emit, H3 | apply stmtInv_emit, H4 | apply stmtInv_emit, Hc ].
Qed.

Lemma literal_keyword (l : lexer) : IsKeyword (literal l) = true -> offset l < rdOffset l.
Proof.
  intros H. destruct (Z.lt_ge_cases (offset l) (rdOffset l)) as [|Hge]; [assumption|].
  exfalso. unfold literal in H.
  pose proof (substring_length (src l) (Z.to_nat (offset l)) (Z.to_nat (rdOffset l - offset l)))
    as L.
  replace (Z.to_nat (rdOffset l - offset l)) with 0%nat in * by lia.
  destruct (String.substring _ 0 _); [discriminate H | cbn in L; lia].
Qed.

Lemma offset_consume_while (p : Z -> bool) (n : nat) :
  forall l, offset (consume_while p n l) = offset l.
Proof.
  induction n as [|n IH]; intros l; [reflexivity|]. cbn [consume_while].
  destruct (p (peek l)); [rewrite IH; apply offset_consume | reflexivity].
Qed.

Lemma step_with_agree (La Da : Z -> bool) (f : stateFunc) (l : lexer) :
  runInv f l ->
  step_with consume_at_rune La Da f l = step La Da f l /\
  (forall l' f', step La Da f l = (l', Some f') -> runInv f' l').
Proof.
  intros H. destruct f; cbn [step_with step runInv] in *.
  - split; [apply lexBase_with_agree|]. destruct H as [Hr Ho].
    intros l' f' E. unfold lexBase in E. cbv zeta in E.
    set (x := if IsSpace (peek l) then consumeSpace l else l) in E.
    assert (Hx : inRange x /\ 0 <= offset x).
    { subst x. destruct (IsSpace (peek l)); [|split; assumption].
      destruct (consumeSpace_grows l Hr) as (_ & Hr' & _). split; [exact Hr'|].
      unfold consumeSpace. cbn [offset ignore]. destruct Hr' as [H0 _]. exact H0. }
    clearbody x. destruct Hx as [Hxr Hxo].
    destruct (isAlphabet (peek l)); [|injection E as <- <-; exact I].
    destruct (IsKeyword (literal (consumeWord x))) eqn:Ek; [|injection E as <- <-; exact I].
    injection E as <- <-. cbn [runInv].
    pose proof (literal_keyword _ Ek) as Hk.
    unfold consumeWord in Hk |- *. rewrite offset_consume_while in Hk.
    destruct (consume_while_grows isAlphabet (src_fuel x) x Hxr) as (_ & Hr' & _).
    split; [exact Hr'|]. cbn. lia.
  - exact (lexStmt_with_agree La Da l H).
  - unfold lexNum_with, lexNum.
    destruct (consume_while_with_stmt (IsDigit Da) (src_fuel l) l H) as [-> H1].
    split; [reflexivity|]. intros l' f' E. injection E as <- <-. apply stmtInv_emit, H1.
  - split; [reflexivity|]. intros l' f' E. injection E as <- <-. apply stmtInv_emit, H.
  - split; [reflexivity|]. intros l' f' E. discriminate E.
Qed.

Lemma run_from_with_agree (La Da : Z -> bool) (n : nat) :
  forall f l, runInv f l ->
  run_from_with consume_at_rune La Da n (Some f) l = run_from La Da n (Some f) l.
Proof.
  induction n as [|n IH]; intros f l H; [reflexivity|]. cbn [run_from_with run_from].
  destruct (step_with_agree La Da f l H) as [-> Hn].
  destruct (step La Da f l) as [l1 [f1|]] eqn:E; [|destruct n; reflexivity].
  apply IH. exact (Hn _ _ eq_refl).
Qed.

Lemma consume_nul_next (l : lexer) :
  atEnd l = false -> byte_at (src l) (rdOffset l) = 0 ->
  consume l = advance 0 1 (error ErrNUL l).
Proof. intros Hend Hb. unfold consume. rewrite Hend, Hb. reflexivity. Qed.

(** The first byte of the rest decides: an ASCII byte decodes to itself. *)
Lemma decode_high (l : lexer) (r w : Z) :
  DecodeRuneInString (bytes_from (src l) (rdOffset l)) = (r, w) ->
  (r, w) <> (RuneError, 0) -> RuneSelf <= r ->
  RuneSelf <= byte_at (src l) (rdOffset l).
Proof.
  intros D Hn Hr. destruct (bytes_from (src l) (rdOffset l)) as [|b bs] eqn:Eb.
  { cbn in D. exfalso. apply Hn. symmetry. exact D. }
  rewrite (byte_at_head _ _ _ _ Eb). destruct (Z.lt_ge_cases b RuneSelf) as [Hb|]; [|assumption].
  exfalso. cbn [DecodeRuneInString] in D. rewrite (proj2 (Z.ltb_lt _ _) Hb) in D.
  injection D as <- <-. lia.
Qed.

Lemma consume_enc_next (l : lexer) :
  atEnd l = false -> DecodeRuneInString (bytes_from (src l) (rdOffset l)) = (RuneError, 1) ->
  consume l = advance RuneError 1 (error ErrEnc l).
Proof.
  intros Hend D. pose proof (decode_high l _ _ D ltac:(discriminate) ltac:(unfold RuneError, RuneSelf; lia)) as Hh.
  unfold consume. rewrite Hend. cbv zeta.
  destruct (Z.eqb_spec (byte_at (src l) (rdOffset l)) 0); [unfold RuneSelf in Hh; lia|].
  destruct (Z.ltb_spec (byte_at (src l) (rdOffset l)) RuneSelf); [lia|].
  rewrite D. reflexivity.
Qed.

Lemma consume_bom_next (l : lexer) (w : Z) :
  atEnd l = false -> DecodeRuneInString (bytes_from (src l) (rdOffset l)) = (bom, w) ->
  consume l = if 0 <? offset l then advance bom w (error ErrBOM l) else advance bom w l.
Proof.
  intros Hend D. pose proof (decode_high l _ _ D ltac:(discriminate) ltac:(unfold bom, RuneSelf; lia)) as Hh.
  unfold consume. rewrite Hend. cbv zeta.
  destruct (Z.eqb_spec (byte_at (src l) (rdOffset l)) 0); [unfold RuneSelf in Hh; lia|].
  destruct (Z.ltb_spec (byte_at (src l) (rdOffset l)) RuneSelf); [lia|].
  rewrite D. reflexivity.
Qed.

Lemma consume_at_rune_bom_next (l : lexer) (w : Z) :
  atEnd l = false -> DecodeRuneInString (bytes_from (src l) (rdOffset l)) = (bom, w) ->
  consume_at_rune l =
  if 0 <? rdOffset l then advance bom w (error ErrBOM l) else advance bom w l.
Proof.
  intros Hend D. pose proof (decode_high l _ _ D ltac:(discriminate) ltac:(unfold bom, RuneSelf; lia)) as Hh.
  unfold consume_at_rune. rewrite Hend. cbv zeta.
  destruct (Z.eqb_spec (byte_at (src l) (rdOffset l)) 0); [unfold RuneSelf in Hh; lia|].
  destruct (Z.ltb_spec (byte_at (src l) (rdOffset l)) RuneSelf); [lia|].
  rewrite D. reflexivity.
Qed.

Lemma reported_advance (e : lexError) (r w : Z) (l : lexer) :
  reported e w l (advance r w (error e l)).
Proof. split; [reflexivity|]. split; [reflexivity|]. split; reflexivity. Qed.

(** [lexStmt] stops the machine only when it reads the end of the source. *)
Lemma lexStmt_continues (La Da : Z -> bool) (l : lexer) :
  ch (consume l) <> eof -> exists f, snd (lexStmt La Da l) = Some f.
Proof.
  intros H. unfold lexStmt. cbv zeta.
  repeat match goal with
  | |- context [if ?b then _ else _] => destruct b eqn:?
  end; try (eexists; reflexivity).
  exfalso. apply H. apply Z.eqb_eq. assumption.
Qed.

(** C8: every fault that the lexer reads is reported and skipped, and
    lexing goes on.  A NUL byte or an invalid UTF-8 sequence read by
    [consume] adds one to [ErrCount], is passed to the handler with the
    position of the rune, and is skipped as one byte; a byte-order mark
    read when the current token does not start the source is reported
    the same way and skipped as its [w] bytes.  In every run of the lexer
    that test gives the answer of a test on the rune's own offset: [Lex]
    is the machine whose [consume] reports every byte-order mark that is
    not the first rune of the source ([consume_at_rune]).  After reading a
    fault [lexStmt] does not stop the machine. *)
Theorem Lex_faults_reported :
  (forall l, atEnd l = false -> byte_at (src l) (rdOffset l) = 0 ->
     reported ErrNUL 1 l (consume l)) /\
  (forall l, atEnd l = false ->
     DecodeRuneInString (bytes_from (src l) (rdOffset l)) = (RuneError, 1) ->
     reported ErrEnc 1 l (consume l)) /\
  (forall l w, atEnd l = false -> 0 < offset l ->
     DecodeRuneInString (bytes_from (src l) (rdOffset l)) = (bom, w) ->
     reported ErrBOM w l (consume l)) /\
  (forall l w, atEnd l = false -> 0 < rdOffset l ->
     DecodeRuneInString (bytes_from (src l) (rdOffset l)) = (bom, w) ->
     reported ErrBOM w l (consume_at_rune l)) /\
  (forall (La Da : Z -> bool) (s : string) (hasErr : bool),
     Lex La Da s hasErr = Lex_with consume_at_rune La Da s hasErr) /\
  (forall (La Da : Z -> bool) (l : lexer), atEnd l = false ->
     byte_at (src l) (rdOffset l) = 0 \/
     DecodeRuneInString (bytes_from (src l) (rdOffset l)) = (RuneError, 1) \/
     (exists w, DecodeRuneInString (bytes_from (src l) (rdOffset l)) = (bom, w)) ->
     exists f, snd (lexStmt La Da l) = Some f).
Proof.
  split; [|split; [|split; [|split; [|split]]]].
  - intros l Hend Hb. rewrite (consume_nul_next l Hend Hb). apply reported_advance.
  - intros l Hend D. rewrite (consume_enc_next l Hend D). apply reported_advance.
  - intros l w Hend Ho D. rewrite (consume_bom_next l w Hend D).
    rewrite (proj2 (Z.ltb_lt _ _) Ho). apply reported_advance.
  - intros l w Hend Ho D. rewrite (consume_at_rune_bom_next l w Hend D).
    rewrite (proj2 (Z.ltb_lt _ _) Ho). apply reported_advance.
  - intros La Da s hasErr. unfold Lex, Lex_with. symmetry. apply run_from_with_agree.
    cbn. unfold inRange, src_len. cbn. lia.
  - intros La Da l Hend [Hb|[D|[w D]]]; apply lexStmt_continues.
    + rewrite (consume_nul_next l Hend Hb). discriminate.
    + rewrite (consume_enc_next l Hend D). discriminate.
    + rewrite (consume_bom_next l w Hend D). destruct (0 <? offset l); discriminate.
Qed.

End LexerRead.

Module ParserExtra.
Import Token Ast Parser.

(** [p'] is a later state of [p]: its unread tokens are a suffix of those
    of [p], and the errors of [p] a prefix of its errors. *)
Definition adv (p p' : parser) : Prop :=
  toks p' `suffix_of` toks p /\ errors p `prefix_of` errors p'.

Lemma adv_refl (p : parser) : adv p p.
Proof. split; reflexivity. Qed.

Lemma adv_trans (p1 p2 p3 : parser) : adv p1 p2 -> adv p2 p3 -> adv p1 p3.
Proof. intros [A1 B1] [A2 B2]. split; etrans; eassumption. Qed.

Lemma adv_next (p : parser) : adv p (next p).
Proof.
  unfold next. destruct (toks p) as [|t r] eqn:E; split; cbn; rewrite ?E; try reflexivity.
  apply suffix_cons_r. reflexivity.
Qed.

Lemma adv_error (e : perror) (p : parser) : adv p (error e p).
Proof. split; cbn; [reflexivity | apply prefix_app_r; reflexivity]. Qed.

Lemma adv_match (k : Z) (p : parser) : adv p (snd (match_ k p)).
Proof. unfold match_. destruct (_ =? k); [apply adv_next | apply adv_refl]. Qed.

Lemma adv_litArgs (n : nat) : forall p, adv p (snd (litArgs n p)).
Proof.
  induction n as [|n IH]; intros p; [apply adv_refl|]. cbn [litArgs].
  pose proof (adv_match STRING p) as M.
  destruct (match_ STRING p) as [[|] p1]; [|apply adv_refl].
  specialize (IH p1). destruct (litArgs n p1) as [args p2].
  exact (adv_trans _ _ _ M IH).
Qed.

Lemma adv_parseCmdLit (p : parser) : adv p (snd (parseCmdLit p)).
Proof.
  unfold parseCmdLit. pose proof (adv_match STRING p) as M.
  destruct (match_ STRING p) as [ok p1].
  assert (A : adv p (if ok then p1 else error (UnexpectedToke (pTok p1)) p1))
    by (destruct ok; [exact M | exact (adv_trans _ _ _ M (adv_error _ _))]).
  revert A. generalize (if ok then p1 else error (UnexpectedToke (pTok p1)) p1). intros q A.
  pose proof (adv_litArgs (length (toks q)) q) as L.
  destruct (litArgs _ q) as [args q']. exact (adv_trans _ _ _ A L).
Qed.

Lemma adv_foldLoop mk op (sub : parser -> Command * parser) :
  (forall q, adv q (snd (sub q))) ->
  forall n e p, adv p (snd (foldLoop mk op sub n e p)).
Proof.
  intros Hs n. induction n as [|n IH]; intros e p; [apply adv_refl|]. cbn [foldLoop].
  pose proof (adv_match op p) as M.
  destruct (match_ op p) as [[|] p1]; [|apply adv_refl].
  pose proof (Hs p1) as S1. destruct (sub p1) as [rhs p2].
  exact (adv_trans _ _ _ M (adv_trans _ _ _ S1 (IH _ _))).
Qed.

Lemma adv_parseCmdPipe (p : parser) : adv p (snd (parseCmdPipe p)).
Proof.
  unfold parseCmdPipe. pose proof (adv_parseCmdLit p) as A.
  destruct (parseCmdLit p) as [e p1].
  exact (adv_trans _ _ _ A (adv_foldLoop _ _ _ adv_parseCmdLit _ _ _)).
Qed.

Lemma adv_parseCmdNot (p : parser) : adv p (snd (parseCmdNot p)).
Proof.
  unfold parseCmdNot. pose proof (adv_match NOT p) as M.
  destruct (match_ NOT p) as [[|] p1]; [|apply adv_parseCmdPipe].
  pose proof (adv_parseCmdPipe p1) as A. destruct (parseCmdPipe p1) as [rhs p2].
  exact (adv_trans _ _ _ M A).
Qed.

Lemma adv_parseCmdAnd (p : parser) : adv p (snd (parseCmdAnd p)).
Proof.
  unfold parseCmdAnd. pose proof (adv_parseCmdNot p) as A.
  destruct (parseCmdNot p) as [e p1].
  exact (adv_trans _ _ _ A (adv_foldLoop _ _ _ adv_parseCmdNot _ _ _)).
Qed.

Lemma adv_parseCmdStmt (p : parser) : adv p (snd (parseCmdStmt p)).
Proof.
  unfold parseCmdStmt, parseCommand, parseCmdLor. pose proof (adv_parseCmdAnd p) as A.
  destruct (parseCmdAnd p) as [e p1].
  pose proof (adv_foldLoop LogicalCommand LOR _ adv_parseCmdAnd (length (toks p1)) e p1) as F.
  destruct (foldLoop _ _ _ _ _ _) as [c p2]. exact (adv_trans _ _ _ A F).
Qed.

Lemma adv_terminator (p : parser) : adv p (terminator p).
Proof.
  unfold terminator. pose proof (adv_match SEMICOLON p) as M.
  destruct (match_ SEMICOLON p) as [[|] p1]; [exact M|].
  exact (adv_trans _ _ _ M (adv_error _ _)).
Qed.

Lemma adv_parseStatement_blockLoop (fuel : nat) :
  (forall p s p', parseStatement fuel p = Some (s, p') -> adv p p') /\
  (forall acc p b p', blockLoop fuel acc p = Some (b, p') -> adv p p').
Proof.
  induction fuel as [|f [IHs IHb]]; split; intros *; cbn [parseStatement blockLoop];
    try discriminate.
  - intros E. repeat case_match; simplify_eq.
    + apply (adv_trans _ (next p)); [apply adv_next|].
      eapply adv_trans; [eapply IHb; eassumption | apply adv_terminator].
    + apply adv_terminator.
    + apply (adv_trans _ (snd (parseCmdStmt p))); [apply adv_parseCmdStmt|].
      match goal with H : parseCmdStmt p = _ |- _ => rewrite H end. apply adv_terminator.
    + apply (adv_trans _ (error (IllegalAtLineStart (pTok p)) p)); [apply adv_error | apply adv_next].
  - intros E. case_match; simplify_eq; [apply adv_refl|].
    destruct (parseStatement f p) as [[s1 p1]|] eqn:Es; [|discriminate].
    eapply adv_trans; [eapply IHs; exact Es|].
    eapply adv_trans; [apply adv_next | eapply IHb; exact E].
Qed.

(** A STRING or [!] at the head is consumed by the command parser. *)
Lemma parseCmdLit_consumes (p : parser) : pTok p = STRING -> adv (next p) (snd (parseCmdLit p)).
Proof.
  intros H. unfold parseCmdLit, match_. rewrite H, Z.eqb_refl. cbn iota.
  pose proof (adv_litArgs (length (toks (next p))) (next p)) as A.
  destruct (litArgs _ _). exact A.
Qed.

Lemma parseCmdPipe_consumes (p : parser) : pTok p = STRING -> adv (next p) (snd (parseCmdPipe p)).
Proof.
  intros H. unfold parseCmdPipe. pose proof (parseCmdLit_consumes p H) as A.
  destruct (parseCmdLit p) as [e p1].
  exact (adv_trans _ _ _ A (adv_foldLoop _ _ _ adv_parseCmdLit _ _ _)).
Qed.

Lemma parseCmdNot_consumes (p : parser) :
  pTok p = STRING \/ pTok p = NOT -> adv (next p) (snd (parseCmdNot p)).
Proof.
  intros H. unfold parseCmdNot, match_.
  destruct H as [H|H]; rewrite H; cbn.
  - apply parseCmdPipe_consumes, H.
  - pose proof (adv_parseCmdPipe (next p)) as A. destruct (parseCmdPipe (next p)). exact A.
Qed.

Lemma parseCmdStmt_consumes (p : parser) :
  pTok p = STRING \/ pTok p = NOT -> adv (next p) (snd (parseCmdStmt p)).
Proof.
  intros H. unfold parseCmdStmt, parseCommand, parseCmdLor, parseCmdAnd.
  pose proof (parseCmdNot_consumes p H) as A. destruct (parseCmdNot p) as [e p1].
  pose proof (adv_foldLoop LogicalCommand LAND _ adv_parseCmdNot (length (toks p1)) e p1) as F1.
  destruct (foldLoop LogicalCommand LAND _ _ _ _) as [e2 p2].
  pose proof (adv_foldLoop LogicalCommand LOR _ adv_parseCmdAnd (length (toks p2)) e2 p2) as F2.
  destruct (foldLoop LogicalCommand LOR _ _ _ _) as [e3 p3].
  exact (adv_trans _ _ _ A (adv_trans _ _ _ F1 F2)).
Qed.

(** Token kinds after which [parseStatement] may stall. *)
Definition stalls (k : Z) : bool := (k =? LBRACE) || (k =? LET) || (k =? IF) || (k =? FOR).

(** On any other kind, one [parseStatement] call returns and consumes at
    least the head token. *)
Lemma parseStatement_progress (f : nat) (p : parser) :
  stalls (pTok p) = false ->
  exists s p', parseStatement (S f) p = Some (s, p') /\ adv (next p) p'.
Proof.
  intros H. unfold stalls in H. repeat rewrite orb_false_iff in H.
  destruct H as [[[H1 H2] H3] H4].
  cbn [parseStatement]. rewrite H1, H2, H3, H4. cbn [orb].
  destruct (Z.eqb_spec (pTok p) STRING) as [Hs|_]; [|destruct (Z.eqb_spec (pTok p) NOT) as [Hs|_]].
  1, 2: pose proof (parseCmdStmt_consumes p ltac:(tauto)) as A;
        destruct (parseCmdStmt p) as [st p1]; cbn [orb];
        eexists _, _; split; [reflexivity|];
        exact (adv_trans _ _ _ A (adv_terminator _)).
  cbn [orb]. eexists _, _; split; [reflexivity|].
  unfold next, error; cbn. destruct (toks p); split; cbn; try reflexivity; apply prefix_app_r; reflexivity.
Qed.

(** Whether every token of the stream lets [parseStatement] progress. *)
Definition no_stall (ts : list Token) : Prop := Forall (fun t => stalls (Type_ t) = false) ts.

Lemma programLoop_terminates (n : nat) :
  forall acc p, no_stall (toks p) -> (length (toks p) < n)%nat ->
  exists prog p', programLoop n acc p = Some (prog, p') /\ atEnd p' = true /\
                  (length prog <= length acc + length (toks p))%nat.
Proof.
  induction n as [|f IH]; intros acc p Hn Hl; [lia|]. cbn [programLoop].
  destruct (atEnd p) eqn:Ea.
  { eexists _, _. split; [reflexivity|]. split; [exact Ea | lia]. }
  destruct (toks p) as [|t r] eqn:Et; [unfold atEnd in Ea; rewrite Et in Ea; discriminate|].
  cbn in Hl. destruct f as [|f]; [lia|].
  inversion Hn as [|? ? Ht Hr]; subst.
  assert (Hk : stalls (pTok p) = false) by (unfold pTok; rewrite Et; exact Ht).
  destruct (parseStatement_progress f p Hk) as (s & p1 & Es & [Hsuf _]).
  rewrite Es.
  unfold next in Hsuf. rewrite Et in Hsuf. cbn in Hsuf.
  pose proof (suffix_length _ _ Hsuf) as Hlen.
  destruct (IH (acc ++ [s]) p1) as (prog & p' & E & Ha & Hp).
  - destruct Hsuf as [k ->]. apply Forall_app in Hr as [_ Hr]. exact Hr.
  - lia.
  - exists prog, p'. split; [exact E|]. split; [exact Ha|].
    rewrite length_app in Hp. cbn in Hp. cbn. lia.
Qed.

(** On a token stream in which no token is [{], [let], [if] or [for],
    [parseProgram] returns after at most one call per token, stops at the
    end of the stream, and yields at most one statement per token. *)
Theorem parseProgram_terminates (ts : list Token) :
  no_stall ts ->
  exists prog p', parseProgram (S (length ts)) (newParser ts) = Some (prog, p') /\
                  atEnd p' = true /\ (length prog <= length ts)%nat.
Proof.
  intros H. unfold parseProgram.
  destruct (programLoop_terminates (S (length ts)) [] (newParser ts) H ltac:(cbn; lia))
    as (prog & p' & E & Ha & Hp).
  exists prog, p'. split; [exact E|]. split; [exact Ha | exact Hp].
Qed.

(** A token of kind [k] spelled [s], at line 1, column 1. *)
Definition tok1 (k : Z) (s : string) : Token := mkToken k s {| Line := 1; Col := 1 |}.

(** The stream [a ; ! b ; EOF]. *)
Definition two_cmds : list Token :=
  [tok1 STRING "a"; tok1 SEMICOLON ";"; tok1 NOT "!"; tok1 STRING "b"; tok1 SEMICOLON ";";
   tok1 EOF ""].

Lemma parseProgram_terminates_witness :
  no_stall two_cmds /\
  exists prog p', parseProgram (S (length two_cmds)) (newParser two_cmds) = Some (prog, p') /\
                  atEnd p' = true /\ (length prog <= length two_cmds)%nat.
Proof.
  assert (H : no_stall two_cmds) by (repeat constructor).
  split; [exact H | exact (parseProgram_terminates two_cmds H)].
Defined.

End ParserExtra.
